(** * Rio: the Sequential Task Flow models and the [counter_deps] driver

    This development embeds two parts of the repository:

    - the StarPU stress driver [starpu/counter_deps.c] (generator, codelets
      and the task construction of [run]), over [Z] with the 64-bit
      wrap-around written out;
    - the TLA+ modules [STFSpec] and [RunInOrder], as transition systems over
      finite sets ([gset]) of [(task, tid)] pairs, with behaviours as
      infinite sequences of states.

    Definitions come first, theorems afterwards. *)

From Stdlib Require Import ZArith Lia Classical_Prop Znumtheory.
From stdpp Require Import base decidable option list sorting functions
  sets fin_sets gmap strings finite.

Local Open Scope Z_scope.

(* ===================================================================== *)
(** * Part I: definitions                                                *)
(* ===================================================================== *)

(** A decidable proposition on closed terms is proved by evaluating its
    decision procedure. *)
Ltac by_computation :=
  apply (bool_decide_unpack _); vm_compute; exact I.

(** ** The [counter_deps] driver (starpu/counter_deps.c) *)

Module CounterDeps.

(** Arithmetic on [uint64_t]: results are reduced modulo [2^64]. *)
Definition wrap64 (z : Z) : Z := z mod 2 ^ 64.

(** [const uint64_t DATA_SHIFT = 7;] *)
Definition DATA_SHIFT : Z := 7.

(** [const uint64_t N_DATA = 1 << DATA_SHIFT;] *)
Definition N_DATA : Z := wrap64 (Z.shiftl 1 DATA_SHIFT).

(** [typedef struct random_number_generator_t { uint64_t state; }] *)
Record random_number_generator_t := { state : Z }.

(** [rng_new]: the generator starts from the fixed seed. *)
Definition rng_new : random_number_generator_t := {| state := 0x92d68ca2 |}.

(** [rng_next]: one xorshift round; returns the updated generator and the
    value produced.  Left shifts wrap, the right shift is logical. *)
Definition rng_next (rng : random_number_generator_t)
  : random_number_generator_t * Z :=
  let x := state rng in
  let x := Z.lxor x (wrap64 (Z.shiftl x 13)) in
  let x := Z.lxor x (Z.shiftr x 7) in
  let x := Z.lxor x (wrap64 (Z.shiftl x 17)) in
  ({| state := x |}, x).

(** StarPU access modes used by the codelets. *)
Inductive starpu_data_access_mode := STARPU_R | STARPU_W | STARPU_RW.

(** The fields of [struct starpu_codelet] that the driver sets. *)
Record starpu_codelet := {
  nbuffers : nat;
  modes : list starpu_data_access_mode;
  name : string
}.

Definition count1_codelet : starpu_codelet :=
  {| nbuffers := 1; modes := [STARPU_R]; name := "count1" |}.

Definition count2_codelet : starpu_codelet :=
  {| nbuffers := 2; modes := [STARPU_R; STARPU_R]; name := "count2" |}.

Definition count3_codelet : starpu_codelet :=
  {| nbuffers := 3; modes := [STARPU_R; STARPU_R; STARPU_RW];
     name := "count3" |}.

(** A registered data handle; [handle_slot] is the position of [H] for
    which [init] registered it. *)
Record starpu_data_handle_t := { handle_slot : nat }.

(** [init]: [H = calloc(N_DATA, ...)] followed by one registration per
    element, [H[0]] to [H[N_DATA - 1]]. *)
Definition init_H : list starpu_data_handle_t :=
  (fun i => {| handle_slot := i |}) <$> seq 0 (Z.to_nat N_DATA).

(** Reading [H[idx]]; [None] stands for an access outside the array. *)
Definition read_H (H : list starpu_data_handle_t) (idx : Z)
  : option starpu_data_handle_t :=
  if bool_decide (0 <= idx) then H !! Z.to_nat idx else None.

(** The task built by one iteration: its codelet and the entries
    [handles[0]], [handles[1]], ... assigned by [run], in order. *)
Record starpu_task := {
  cl : starpu_codelet;
  handles : list starpu_data_handle_t
}.

(** The three indices derived from one generated value. *)
Definition idx_1 (x : Z) : Z := x mod N_DATA.
Definition idx_2 (x : Z) : Z := Z.shiftr x DATA_SHIFT mod N_DATA.
Definition idx_3 (x : Z) : Z := Z.shiftr x (2 * DATA_SHIFT) mod N_DATA.

(** The four leaves of the nested conditional of [run], in source order. *)
Inductive run_branch :=
  | BranchAllEqual        (* idx_1 == idx_2, idx_1 == idx_3 *)
  | BranchFirstTwoEqual   (* idx_1 == idx_2, idx_1 != idx_3 *)
  | BranchThirdCollides   (* idx_1 != idx_2, idx_1 == idx_3 || idx_2 == idx_3 *)
  | BranchAllDistinct.    (* the final else *)

Definition select_branch (i1 i2 i3 : Z) : run_branch :=
  if i1 =? i2 then
    if i1 =? i3 then BranchAllEqual else BranchFirstTwoEqual
  else
    if (i1 =? i3) || (i2 =? i3) then BranchThirdCollides
    else BranchAllDistinct.

(** The assignments performed in each leaf. *)
Definition branch_task (H : list starpu_data_handle_t) (i1 i2 i3 : Z)
    (b : run_branch) : option starpu_task :=
  match b with
  | BranchAllEqual =>
      h0 ← read_H H i1;
      Some {| cl := count1_codelet; handles := [h0] |}
  | BranchFirstTwoEqual =>
      h0 ← read_H H i1; h1 ← read_H H i3;
      Some {| cl := count2_codelet; handles := [h0; h1] |}
  | BranchThirdCollides =>
      h0 ← read_H H i1; h1 ← read_H H i2;
      Some {| cl := count2_codelet; handles := [h0; h1] |}
  | BranchAllDistinct =>
      h0 ← read_H H i1; h1 ← read_H H i2; h2 ← read_H H i3;
      Some {| cl := count2_codelet; handles := [h0; h1; h2] |}
  end.

(** The body of the loop of [run] for the generated value [x]. *)
Definition prepare_task (H : list starpu_data_handle_t) (x : Z)
  : option starpu_task :=
  branch_task H (idx_1 x) (idx_2 x) (idx_3 x)
    (select_branch (idx_1 x) (idx_2 x) (idx_3 x)).

(** The loop of [run]: [n] iterations, threading the generator. *)
Fixpoint run_loop (H : list starpu_data_handle_t) (n : nat)
    (rng : random_number_generator_t) : option (list starpu_task) :=
  match n with
  | O => Some []
  | S n' =>
      let '(rng', x) := rng_next rng in
      t ← prepare_task H x;
      ts ← run_loop H n' rng';
      Some (t :: ts)
  end.

Definition run (N_TASKS : nat) : option (list starpu_task) :=
  run_loop init_H N_TASKS rng_new.

(** The values produced by the first [n] calls of [rng_next]. *)
Fixpoint generated (n : nat) (rng : random_number_generator_t) : list Z :=
  match n with
  | O => []
  | S n' => let '(rng', x) := rng_next rng in x :: generated n' rng'
  end.

(** What StarPU schedules for a submitted task: the first [nbuffers]
    handles of the task, each with the mode the codelet gives it. *)
Definition task_accesses (t : starpu_task)
  : list (starpu_data_handle_t * starpu_data_access_mode) :=
  zip (take (nbuffers (cl t)) (handles t)) (modes (cl t)).

(** *** Command line and entry point *)

(** How a call may end: it returns, the process exits with a status, or
    the behaviour is not defined by the language (a signed overflow). *)
Inductive outcome (A : Type) :=
  | Returns (a : A)
  | Exits (status : Z)
  | Undefined.
Arguments Returns {A} a.
Arguments Exits {A} status.
Arguments Undefined {A}.

(** [int] is 32 bits wide. *)
Definition INT_MAX : Z := 2 ^ 31 - 1.
Definition INT_MIN : Z := - 2 ^ 31.

(** The globals set by [init]: [N_TASKS] and [N], both [uint64_t],
    initially 1000. *)
Record globals := { N_TASKS : Z; N : Z }.

Definition default_globals : globals := {| N_TASKS := 1000; N := 1000 |}.

(** The loop of [init] over [argv[1]], ..., [argv[argc - 1]].  [values]
    holds the results of [atoi] on them (each an [int]); an [int] stored
    in a [uint64_t] is reduced modulo [2^64].  A third argument prints a
    message and calls [exit(1)]. *)
Fixpoint init_loop (values : list Z) (arg : Z) (g : globals)
  : outcome globals :=
  match values with
  | [] => Returns g
  | value :: rest =>
      if arg =? 0 then
        init_loop rest (arg + 1) {| N_TASKS := wrap64 value; N := N g |}
      else if arg =? 1 then
        init_loop rest (arg + 1) {| N_TASKS := N_TASKS g; N := wrap64 value |}
      else Exits 1
  end.

(** [init]: the arguments, then the registration of [H] (StarPU is taken
    to initialise). *)
Definition init (values : list Z)
  : outcome (globals * list starpu_data_handle_t) :=
  match init_loop values 0 default_globals with
  | Returns g => Returns (g, init_H)
  | Exits status => Exits status
  | Undefined => Undefined
  end.

(** [run] with the loop counter as the source has it: [int i] is compared
    with the [uint64_t N_TASKS] after conversion, and [i++] overflows once
    [i] has reached [INT_MAX] with the test still true. *)
Definition run_counted (H : list starpu_data_handle_t) (n_tasks : Z)
  : outcome (list starpu_task) :=
  if n_tasks <=? INT_MAX then
    match run_loop H (Z.to_nat n_tasks) rng_new with
    | Some ts => Returns ts
    | None => Undefined
    end
  else Undefined.

(** [main]: [init(argc, argv); run(); cleanup();]. *)
Definition main (values : list Z) : outcome (list starpu_task) :=
  match init values with
  | Returns (g, H) => run_counted H (N_TASKS g)
  | Exits status => Exits status
  | Undefined => Undefined
  end.

(** The two kinds of rounds of [rng_next]. *)
Definition xorshift_left (a x : Z) : Z := Z.lxor x (wrap64 (Z.shiftl x a)).
Definition xorshift_right (a x : Z) : Z := Z.lxor x (Z.shiftr x a).

End CounterDeps.

(** ** The TLA+ modules (specs/STFSpec.tla, RunInOrder)

    Conventions of the embedding.
    - [Task] is [DOMAIN Tasks] and [Data] is the constant set [Data]; a
      dependency kind is one of the three strings "R", "W", "None".  These
      are the typing conjuncts of [TypeOK] on the constants.
    - [Workers] and [ControlFlow] are finite sets; task identifiers are
      integers.
    - A worker state is [Idle] or a pair [(t, tid)], a tagged union.
    - A function over [Workers] is a Rocq function over the type of
      workers; only its values on [Workers] are ever read or updated.
    - A behaviour is an infinite sequence of states, [nat -> State]. *)

(** The dependency kinds "R", "W" and "None". *)
Inductive Dependency := DepR | DepW | DepNone.

#[global] Instance Dependency_eq_dec : EqDecision Dependency.
Proof. solve_decision. Defined.

(** Decidability transported along an equivalence. *)
Definition decision_iff {P Q : Prop} (HPQ : P <-> Q) (d : Decision P)
  : Decision Q :=
  match d with
  | left p => left (proj1 HPQ p)
  | right n => right (fun q => n (proj2 HPQ q))
  end.

Lemma forall_pair_set_Forall `{Countable A} {B : Type} `{Countable B}
    (P : A * B -> Prop) (X : gset (A * B)) :
  set_Forall P X <-> (forall a b, (a, b) ∈ X -> P (a, b)).
Proof.
  split.
  - intros Hall a b Hin. by apply Hall.
  - intros Hall [a b] Hin. by apply Hall.
Qed.

(** [conflicts k earlier]: an access of kind [k] must wait for an earlier
    unfinished access of kind [earlier] to the same data: a read waits for
    a write, a write waits for any access. *)
Definition conflicts (k earlier : Dependency) : Prop :=
  match k with
  | DepNone => False
  | DepR => earlier = DepW
  | DepW => earlier <> DepNone
  end.

Module STFSpec.
Section Spec.

Context {Task Worker Data : Type} `{Countable Task} `{Countable Worker}.

(** CONSTANTS *)
Variable Tasks : Task -> Data -> Dependency.
Variable Workers : gset Worker.
Variable ControlFlow : gset (Task * Z).

(** The constant [Idle]: the state of a worker that executes no task. *)
Definition Idle : option (Task * Z) := None.

(** VARIABLES *)
Record State := mkState {
  pendingTasks : gset (Task * Z);
  workerStates : Worker -> option (Task * Z)
}.

(** [{w \in Workers: workerStates[w] # Idle}] *)
Definition activeWorkers (s : State) : gset Worker :=
  filter (fun w => workerStates s w <> Idle) Workers.

(** [{workerStates[w]: w \in activeWorkers}] *)
Definition activeTasks (s : State) : gset (Task * Z) :=
  set_omap (workerStates s) (activeWorkers s).

Definition Init (s : State) : Prop :=
  pendingTasks s = ControlFlow /\
  workerStates s = (fun _ => Idle).

(** The conjuncts of [TypeOK] on the variables. *)
Definition TypeOK (s : State) : Prop :=
  activeTasks s ⊆ ControlFlow /\
  pendingTasks s ⊆ ControlFlow.

Definition DataRaceFreedom (s : State) : Prop :=
  forall task1 task2 : Task * Z,
    task1 ∈ activeTasks s -> task2 ∈ activeTasks s ->
    forall d : Data,
      Tasks task1.1 d = DepW ->
      task1.2 = task2.2 \/ Tasks task2.1 d = DepNone.

Definition ReadReady (s : State) (d : Data) (tid : Z) : Prop :=
  forall (t : Task) (otherTid : Z),
    (t, otherTid) ∈ pendingTasks s ∪ activeTasks s ->
    Tasks t d = DepNone \/ Tasks t d = DepR \/ otherTid >= tid.

Definition WriteReady (s : State) (d : Data) (tid : Z) : Prop :=
  forall (t : Task) (otherTid : Z),
    (t, otherTid) ∈ pendingTasks s ∪ activeTasks s ->
    Tasks t d = DepNone \/ otherTid >= tid.

Definition TaskReady (s : State) (t : Task) (tid : Z) : Prop :=
  forall d : Data,
    Tasks t d = DepNone \/
    (Tasks t d = DepR /\ ReadReady s d tid) \/
    (Tasks t d = DepW /\ WriteReady s d tid).

Definition ExecuteTask (w : Worker) (t : Task) (tid : Z) (s s' : State)
  : Prop :=
  TaskReady s t tid /\
  workerStates s w = Idle /\
  workerStates s' = <[w := Some (t, tid)]> (workerStates s) /\
  pendingTasks s' = pendingTasks s ∖ {[ (t, tid) ]}.

(** The guard [workerStates[w] \in (DOMAIN Tasks) \X Int] says that [w]
    holds a task. *)
Definition TerminateTask (w : Worker) (s s' : State) : Prop :=
  is_Some (workerStates s w) /\
  workerStates s' = <[w := Idle]> (workerStates s) /\
  pendingTasks s' = pendingTasks s.

Definition Next (s s' : State) : Prop :=
  exists w, w ∈ Workers /\
    ((exists t tid, (t, tid) ∈ pendingTasks s /\ ExecuteTask w t tid s s') \/
     TerminateTask w s s').

Definition Terminated (s : State) : Prop :=
  pendingTasks s ∪ activeTasks s = ∅.

(** [ENABLED <<Next>>_vars]: some [Next] step changes the variables. *)
Definition Enabled (s : State) : Prop :=
  exists s', Next s s' /\ s' <> s.

(** [WF_vars(Next)]: if a changing [Next] step stays enabled from some
    point on, one is eventually taken. *)
Definition WF (b : nat -> State) : Prop :=
  forall n, (forall m, (n <= m)%nat -> Enabled (b m)) ->
    exists m, (n <= m)%nat /\ Next (b m) (b (S m)) /\ b (S m) <> b m.

(** [Spec == Init /\ [][Next]_vars /\ WF_vars(Next)] *)
Definition Spec (b : nat -> State) : Prop :=
  Init (b O) /\
  (forall n, Next (b n) (b (S n)) \/ b (S n) = b n) /\
  WF b.

(** States reached from [Init] by [Next] steps. *)
Inductive reachable : State -> Prop :=
  | reachable_Init s : Init s -> reachable s
  | reachable_Next s s' : reachable s -> Next s s' -> reachable s'.

(** Invariant used to establish [DataRaceFreedom] (not part of the TLA+
    module): an active task conflicts with no unfinished task that
    precedes it in the sequential order. *)
Definition Ordered (s : State) : Prop :=
  forall x2 x1 : Task * Z,
    x2 ∈ activeTasks s -> x1 ∈ pendingTasks s ∪ activeTasks s ->
    x1.2 < x2.2 ->
    forall d : Data, ~ conflicts (Tasks x2.1 d) (Tasks x1.1 d).

(** Invariant used to establish termination (not part of the TLA+ module):
    a task held by a worker is no longer pending, and is held by that
    worker only. *)
Definition Started (s : State) : Prop :=
  (forall w x, workerStates s w = Some x -> x ∉ pendingTasks s) /\
  (forall w1 w2 x, workerStates s w1 = Some x -> workerStates s w2 = Some x ->
     w1 = w2).

(** Number of phase changes still to come. *)
Definition remaining (s : State) : nat :=
  size (pendingTasks s) + size (pendingTasks s ∪ activeTasks s).

End Spec.

(** *** Executable view: decidable readiness and step functions *)

Section Executable.

Context {Task Worker Data : Type} `{Countable Task} `{Countable Worker}
  `{Finite Data}.
Variable Tasks : Task -> Data -> Dependency.
Variable Workers : gset Worker.

Local Abbreviation state := (@State Task Worker _ _).

#[global] Instance ReadReady_dec (s : state) d tid :
  Decision (ReadReady Tasks Workers s d tid) :=
  decision_iff
    (forall_pair_set_Forall
       (fun x : Task * Z =>
          Tasks x.1 d = DepNone \/ Tasks x.1 d = DepR \/ x.2 >= tid)
       (pendingTasks s ∪ activeTasks Workers s))
    (decide _).

#[global] Instance WriteReady_dec (s : state) d tid :
  Decision (WriteReady Tasks Workers s d tid) :=
  decision_iff
    (forall_pair_set_Forall
       (fun x : Task * Z => Tasks x.1 d = DepNone \/ x.2 >= tid)
       (pendingTasks s ∪ activeTasks Workers s))
    (decide _).

#[global] Instance TaskReady_dec (s : state) t tid :
  Decision (TaskReady Tasks Workers s t tid).
Proof. unfold TaskReady. apply _. Defined.

(** The two kinds of step, as functions on states. *)
Inductive action :=
  | Execute (w : Worker) (x : Task * Z)
  | Terminate (w : Worker).

Definition perform (a : action) (s : state) : state :=
  match a with
  | Execute w x =>
      mkState (pendingTasks s ∖ {[ x ]}) (<[w := Some x]> (workerStates s))
  | Terminate w =>
      mkState (pendingTasks s) (<[w := Idle]> (workerStates s))
  end.

(** The enabling condition of each kind of step. *)
Definition allowed (a : action) (s : state) : Prop :=
  match a with
  | Execute w x =>
      w ∈ Workers /\ x ∈ pendingTasks s /\
      TaskReady Tasks Workers s x.1 x.2 /\ workerStates s w = Idle
  | Terminate w => w ∈ Workers /\ is_Some (workerStates s w)
  end.

#[global] Instance allowed_dec a s : Decision (allowed a s).
Proof. destruct a; simpl; apply _. Defined.

(** The state after the first [n] actions of a schedule. *)
Definition play (sched : list action) (s : state) (n : nat) : state :=
  foldl (fun s a => perform a s) s (take n sched).

(** Every action of the schedule is allowed when its turn comes. *)
Fixpoint valid_schedule (sched : list action) (s : state) : Prop :=
  match sched with
  | [] => True
  | a :: sched' => allowed a s /\ valid_schedule sched' (perform a s)
  end.

#[global] Instance valid_schedule_dec sched s :
  Decision (valid_schedule sched s).
Proof. revert s. induction sched; intros s; simpl; apply _. Defined.

(** A valid schedule that ends in a state with no pending and no active
    task. *)
Fixpoint complete_schedule (sched : list action) (s : state) : Prop :=
  match sched with
  | [] => pendingTasks s ∪ activeTasks Workers s = ∅
  | a :: sched' => allowed a s /\ complete_schedule sched' (perform a s)
  end.

#[global] Instance complete_schedule_dec sched s :
  Decision (complete_schedule sched s).
Proof. revert s. induction sched; intros s; simpl; apply _. Defined.

End Executable.
End STFSpec.

Module RunInOrder.
Section Spec.

Context {Task Worker Data : Type} `{Countable Task} `{Countable Worker}.

(** CONSTANTS *)
Variable Tasks : Task -> Data -> Dependency.
Variable Workers : gset Worker.
Variable ControlFlow : gset (Task * Z).
Variable Mapping : Z -> Worker.

(** The constant [Idle]: the state of a worker that executes no task. *)
Definition Idle : option (Task * Z) := None.

(** VARIABLES *)
Record State := mkState {
  workerPendingTasks : Worker -> gset (Task * Z);
  terminatedTasks : gset (Task * Z);
  workerStates : Worker -> option (Task * Z)
}.

(** [UNION {workerPendingTasks[w]: w \in Workers}] *)
Definition pendingTasks (s : State) : gset (Task * Z) :=
  ⋃ (workerPendingTasks s <$> elements Workers).

(** [{w \in Workers: workerStates[w] # Idle}] *)
Definition activeWorkers (s : State) : gset Worker :=
  filter (fun w => workerStates s w <> Idle) Workers.

(** [{workerStates[w]: w \in activeWorkers}] *)
Definition activeTasks (s : State) : gset (Task * Z) :=
  set_omap (workerStates s) (activeWorkers s).

Definition Init (s : State) : Prop :=
  terminatedTasks s = ∅ /\
  workerStates s = (fun _ => Idle) /\
  workerPendingTasks s =
    (fun w => filter (fun x : Task * Z => Mapping x.2 = w) ControlFlow).

(** The conjunct of [TypeOK] on the variables. *)
Definition TypeOK (s : State) : Prop :=
  pendingTasks s ∪ activeTasks s ∪ terminatedTasks s = ControlFlow.

Definition ReadReady (s : State) (d : Data) (tid : Z) : Prop :=
  forall (t : Task) (other_tid : Z),
    (t, other_tid) ∈ ControlFlow ->
    Tasks t d = DepNone \/ Tasks t d = DepR \/ tid <= other_tid \/
    (t, other_tid) ∈ terminatedTasks s.

Definition WriteReady (s : State) (d : Data) (tid : Z) : Prop :=
  forall (t : Task) (other_tid : Z),
    (t, other_tid) ∈ ControlFlow ->
    Tasks t d = DepNone \/ tid <= other_tid \/
    (t, other_tid) ∈ terminatedTasks s.

Definition TaskReady (s : State) (t : Task) (tid : Z) : Prop :=
  forall d : Data,
    Tasks t d = DepNone \/
    (Tasks t d = DepR /\ ReadReady s d tid) \/
    (Tasks t d = DepW /\ WriteReady s d tid).

Definition ExecuteTask (w : Worker) (s s' : State) : Prop :=
  workerStates s w = Idle /\
  exists t tid, (t, tid) ∈ workerPendingTasks s w /\
    (forall other_t other_tid,
        (other_t, other_tid) ∈ workerPendingTasks s w -> tid <= other_tid) /\
    TaskReady s t tid /\
    workerPendingTasks s' =
      <[w := workerPendingTasks s w ∖ {[ (t, tid) ]}]> (workerPendingTasks s) /\
    workerStates s' = <[w := Some (t, tid)]> (workerStates s) /\
    terminatedTasks s' = terminatedTasks s.

(** The guard [workerStates[w] \in (DOMAIN Tasks) \X Int] says that [w]
    holds a task, [x]; it is the task added to [terminatedTasks]. *)
Definition TerminateTask (w : Worker) (s s' : State) : Prop :=
  exists x, workerStates s w = Some x /\
    workerStates s' = <[w := Idle]> (workerStates s) /\
    terminatedTasks s' = terminatedTasks s ∪ {[ x ]} /\
    workerPendingTasks s' = workerPendingTasks s.

Definition Next (s s' : State) : Prop :=
  exists w, w ∈ Workers /\ (ExecuteTask w s s' \/ TerminateTask w s s').

(** [ENABLED <<Next>>_vars] and [WF_vars(Next)], as in [STFSpec]. *)
Definition Enabled (s : State) : Prop :=
  exists s', Next s s' /\ s' <> s.

Definition WF (b : nat -> State) : Prop :=
  forall n, (forall m, (n <= m)%nat -> Enabled (b m)) ->
    exists m, (n <= m)%nat /\ Next (b m) (b (S m)) /\ b (S m) <> b m.

(** [Spec == Init /\ [][Next]_vars /\ WF_vars(Next)] *)
Definition Spec (b : nat -> State) : Prop :=
  Init (b O) /\
  (forall n, Next (b n) (b (S n)) \/ b (S n) = b n) /\
  WF b.

(** [STF == INSTANCE STFSpec]: the variables of [STFSpec] are instantiated
    by [pendingTasks] and [workerStates] of this module. *)
Definition STF (s : State) : STFSpec.State :=
  STFSpec.mkState (pendingTasks s) (workerStates s).

Inductive reachable : State -> Prop :=
  | reachable_Init s : Init s -> reachable s
  | reachable_Next s s' : reachable s -> Next s s' -> reachable s'.

(** The task, if any, that worker [w] starts in the step from [s] to [s']. *)
Definition started (w : Worker) (s s' : State) : option (Task * Z) :=
  match workerStates s w, workerStates s' w with
  | None, Some x => Some x
  | _, _ => None
  end.

(** The identifiers of the tasks worker [w] has started during the first
    [n] steps of the behaviour [b], in the order it started them. *)
Fixpoint executed (b : nat -> State) (w : Worker) (n : nat) : list Z :=
  match n with
  | O => []
  | S n' =>
      executed b w n' ++
      match started w (b n') (b n) with Some x => [x.2] | None => [] end
  end.

(** The task, if any, that worker [w] finishes in the step from [s] to
    [s']. *)
Definition stopped (w : Worker) (s s' : State) : option (Task * Z) :=
  match workerStates s w, workerStates s' w with
  | Some x, None => Some x
  | _, _ => None
  end.

(** Invariant used in the proofs (not part of the TLA+ module): every task
    of the control flow sits in the queue of its worker, runs on its
    worker, or has terminated, and these do not overlap. *)
Definition Inv (s : State) : Prop :=
  (forall w x, x ∈ workerPendingTasks s w ->
     x ∈ ControlFlow /\ Mapping x.2 = w) /\
  (forall w x, workerStates s w = Some x ->
     w ∈ Workers /\ x ∈ ControlFlow /\ Mapping x.2 = w /\
     (x ∉ workerPendingTasks s w) /\ (x ∉ terminatedTasks s)) /\
  (forall x, x ∈ terminatedTasks s ->
     x ∈ ControlFlow /\ x ∉ workerPendingTasks s (Mapping x.2)) /\
  (forall x, x ∈ ControlFlow ->
     x ∈ workerPendingTasks s (Mapping x.2) \/
     workerStates s (Mapping x.2) = Some x \/
     x ∈ terminatedTasks s).

(** Number of phase changes still to come: pending tasks must start and
    end, active ones must end. *)
Definition remaining (s : State) : nat :=
  size (pendingTasks s) + size (ControlFlow ∖ terminatedTasks s).

End Spec.

(** *** Executable view: decidable readiness and step functions *)

Section Executable.

Context {Task Worker Data : Type} `{Countable Task} `{Countable Worker}
  `{Finite Data}.
Variable Tasks : Task -> Data -> Dependency.
Variable Workers : gset Worker.
Variable ControlFlow : gset (Task * Z).

Local Abbreviation state := (@State Task Worker _ _).

#[global] Instance ReadReady_dec (s : state) d tid :
  Decision (ReadReady Tasks ControlFlow s d tid) :=
  decision_iff
    (forall_pair_set_Forall
       (fun x : Task * Z =>
          Tasks x.1 d = DepNone \/ Tasks x.1 d = DepR \/ tid <= x.2 \/
          x ∈ terminatedTasks s)
       ControlFlow)
    (decide _).

#[global] Instance WriteReady_dec (s : state) d tid :
  Decision (WriteReady Tasks ControlFlow s d tid) :=
  decision_iff
    (forall_pair_set_Forall
       (fun x : Task * Z =>
          Tasks x.1 d = DepNone \/ tid <= x.2 \/ x ∈ terminatedTasks s)
       ControlFlow)
    (decide _).

#[global] Instance TaskReady_dec (s : state) t tid :
  Decision (TaskReady Tasks ControlFlow s t tid).
Proof. unfold TaskReady. apply _. Defined.

(** The two kinds of step, as functions on states. *)
Inductive action :=
  | Execute (w : Worker) (x : Task * Z)
  | Terminate (w : Worker) (x : Task * Z).

Definition perform (a : action) (s : state) : state :=
  match a with
  | Execute w x =>
      mkState
        (<[w := workerPendingTasks s w ∖ {[ x ]}]> (workerPendingTasks s))
        (terminatedTasks s)
        (<[w := Some x]> (workerStates s))
  | Terminate w x =>
      mkState (workerPendingTasks s) (terminatedTasks s ∪ {[ x ]})
        (<[w := Idle]> (workerStates s))
  end.

(** The enabling condition of each kind of step. *)
Definition allowed (a : action) (s : state) : Prop :=
  match a with
  | Execute w x =>
      w ∈ Workers /\ workerStates s w = Idle /\
      x ∈ workerPendingTasks s w /\
      set_Forall (fun y : Task * Z => x.2 <= y.2) (workerPendingTasks s w) /\
      TaskReady Tasks ControlFlow s x.1 x.2
  | Terminate w x => w ∈ Workers /\ workerStates s w = Some x
  end.

#[global] Instance allowed_dec a s : Decision (allowed a s).
Proof. destruct a; simpl; apply _. Defined.

(** The state after the first [n] actions of a schedule. *)
Definition play (sched : list action) (s : state) (n : nat) : state :=
  foldl (fun s a => perform a s) s (take n sched).

(** Every action of the schedule is allowed when its turn comes, and the
    schedule ends in a state with no pending and no active task. *)
Fixpoint complete_schedule (sched : list action) (s : state) : Prop :=
  match sched with
  | [] => pendingTasks Workers s ∪ activeTasks Workers s = ∅
  | a :: sched' => allowed a s /\ complete_schedule sched' (perform a s)
  end.

#[global] Instance complete_schedule_dec sched s :
  Decision (complete_schedule sched s).
Proof. revert s. induction sched; intros s; simpl; apply _. Defined.

End Executable.

(** The identifiers of a set of tasks in sequential (submission) order. *)
Definition submission_order `{Countable Task} (X : gset (Task * Z)) : list Z :=
  merge_sort Z.le (snd <$> elements X).

End RunInOrder.

(** ** Auxiliary notions used in the statements and proofs *)

(** Task identifiers name tasks: no identifier occurs twice in the control
    flow (the sequential order on the tasks is strict). *)
Definition unique_tids `{Countable Task} (ControlFlow : gset (Task * Z))
  : Prop :=
  forall t1 t2 tid,
    (t1, tid) ∈ ControlFlow -> (t2, tid) ∈ ControlFlow -> t1 = t2.

(** [Mapping] sends the identifier of every task of the control flow to one
    of the workers. *)
Definition maps_to_workers `{Countable Task} `{Countable Worker}
    (Workers : gset Worker) (ControlFlow : gset (Task * Z))
    (Mapping : Z -> Worker) : Prop :=
  forall t tid, (t, tid) ∈ ControlFlow -> Mapping tid ∈ Workers.

(** The readiness predicate in the words of the specification, for a task
    [t] with identifier [tid] whose access list is given by [Tasks t]:
    for a Read of [d], no unfinished (pending or active) task with a
    smaller identifier has Write on [d]; for a Write of [d], no unfinished
    task with a smaller identifier has any access on [d]. *)
Definition spec_ready {Task Data : Type} `{Countable Task}
    (Tasks : Task -> Data -> Dependency) (unfinished : gset (Task * Z))
    (t : Task) (tid : Z) : Prop :=
  forall d : Data,
    (Tasks t d = DepR ->
     forall x : Task * Z, x ∈ unfinished -> x.2 < tid -> Tasks x.1 d <> DepW) /\
    (Tasks t d = DepW ->
     forall x : Task * Z, x ∈ unfinished -> x.2 < tid -> Tasks x.1 d = DepNone).

(** What the runtime requires of a submitted task of the driver, and what
    the driver's tasks turn out to be: the handles are registered ones and
    none occurs twice; one or two of them are declared to the codelet, all
    for reading. *)
Definition read_only_task (H : list CounterDeps.starpu_data_handle_t)
    (t : CounterDeps.starpu_task) : Prop :=
  NoDup (CounterDeps.handles t) /\
  (forall h, h ∈ CounterDeps.handles t -> h ∈ H) /\
  (1 <= length (CounterDeps.task_accesses t) <= 2)%nat /\
  (forall a, a ∈ CounterDeps.task_accesses t ->
     a.1 ∈ CounterDeps.handles t /\ a.2 = CounterDeps.STARPU_R).

(** ** The 2x2 LU model (RunInOrderModelChecker2x2, STFModelChecker2x2)

    The constants of the two model-checking modules for the 2x2 tiled LU
    factorisation, with a complete run of the in-order model and a prefix
    of a run of the abstract model in which two panels execute
    concurrently. *)

Module LU2x2.

Inductive TaskName := fact1 | fact2 | panel21 | panel12 | gemm22.
Inductive WorkerName := w1 | w2.
Inductive DataName := d11 | d12 | d21 | d22.

#[global] Instance TaskName_eq_dec : EqDecision TaskName.
Proof. solve_decision. Defined.

#[global] Instance WorkerName_eq_dec : EqDecision WorkerName.
Proof. solve_decision. Defined.

#[global] Instance DataName_eq_dec : EqDecision DataName.
Proof. solve_decision. Defined.

#[global] Instance TaskName_finite : Finite TaskName.
Proof.
  refine {| enum := [fact1; fact2; panel21; panel12; gemm22] |}.
  - by_computation.
  - intros []; by_computation.
Defined.

#[global] Instance WorkerName_finite : Finite WorkerName.
Proof.
  refine {| enum := [w1; w2] |}.
  - by_computation.
  - intros []; by_computation.
Defined.

#[global] Instance DataName_finite : Finite DataName.
Proof.
  refine {| enum := [d11; d12; d21; d22] |}.
  - by_computation.
  - intros []; by_computation.
Defined.

#[global] Instance TaskName_countable : Countable TaskName :=
  finite_countable.

#[global] Instance WorkerName_countable : Countable WorkerName :=
  finite_countable.

Definition InputWorkers : gset WorkerName := {[ w1; w2 ]}.

(** [[tid \in Int |-> IF tid % 2 = 0 THEN "w1" ELSE "w2"]] *)
Definition InputMapping (tid : Z) : WorkerName :=
  if decide (tid mod 2 = 0) then w1 else w2.

Definition InputControlFlow : gset (TaskName * Z) :=
  {[ (fact1, 1); (panel21, 2); (panel12, 4); (gemm22, 6); (fact2, 10) ]}.

Definition NoDependency : DataName -> Dependency := fun _ => DepNone.
Definition Read11 : DataName -> Dependency := <[d11 := DepR]> NoDependency.
Definition Read22 : DataName -> Dependency := <[d22 := DepR]> NoDependency.
Definition Write11 : DataName -> Dependency := <[d11 := DepW]> NoDependency.
Definition Write22 : DataName -> Dependency := <[d22 := DepW]> NoDependency.

Definition InputTasks (t : TaskName) : DataName -> Dependency :=
  match t with
  | fact1 => Write11
  | fact2 => Write22
  | panel21 => <[d21 := DepW]> Read11
  | panel12 => <[d12 := DepW]> Read11
  | gemm22 => <[d21 := DepR]> (<[d12 := DepR]> Write22)
  end.

(** The initial state of the in-order model. *)
Definition init : @RunInOrder.State TaskName WorkerName _ _ :=
  RunInOrder.mkState
    (fun w => filter (fun x : TaskName * Z => InputMapping x.2 = w)
                InputControlFlow)
    ∅ (fun _ => RunInOrder.Idle).

(** A complete run: [w2] executes [fact1], then [w1] executes its four
    tasks in order. *)
Definition schedule : list RunInOrder.action :=
  [ RunInOrder.Execute w2 (fact1, 1); RunInOrder.Terminate w2 (fact1, 1);
    RunInOrder.Execute w1 (panel21, 2); RunInOrder.Terminate w1 (panel21, 2);
    RunInOrder.Execute w1 (panel12, 4); RunInOrder.Terminate w1 (panel12, 4);
    RunInOrder.Execute w1 (gemm22, 6); RunInOrder.Terminate w1 (gemm22, 6);
    RunInOrder.Execute w1 (fact2, 10); RunInOrder.Terminate w1 (fact2, 10) ].

Definition run : nat -> RunInOrder.State := RunInOrder.play schedule init.

(** The initial state of the abstract model, and a prefix of one of its
    runs: after [fact1], the two panels execute at the same time. *)
Definition STF_init : @STFSpec.State TaskName WorkerName _ _ :=
  STFSpec.mkState InputControlFlow (fun _ => STFSpec.Idle).

Definition STF_schedule : list STFSpec.action :=
  [ STFSpec.Execute w1 (fact1, 1); STFSpec.Terminate w1;
    STFSpec.Execute w1 (panel21, 2); STFSpec.Execute w2 (panel12, 4) ].

Definition STF_panels : STFSpec.State :=
  STFSpec.play STF_schedule STF_init 4.

(** A complete run of the abstract model, with the two panels in
    parallel. *)
Definition STF_full_schedule : list STFSpec.action :=
  STF_schedule ++
  [ STFSpec.Terminate w1; STFSpec.Terminate w2;
    STFSpec.Execute w2 (gemm22, 6); STFSpec.Terminate w2;
    STFSpec.Execute w1 (fact2, 10); STFSpec.Terminate w1 ].

Definition STF_run : nat -> STFSpec.State :=
  STFSpec.play STF_full_schedule STF_init.

End LU2x2.

(* ===================================================================== *)
(** * Part II: theorems                                                  *)
(* ===================================================================== *)

Section CounterDepsFacts.
Import CounterDeps.

Lemma N_DATA_value : N_DATA = 128.
Proof. reflexivity. Qed.

Lemma init_H_length : length init_H = Z.to_nat N_DATA.
Proof. unfold init_H. by rewrite length_fmap, length_seq. Qed.

Lemma idx_1_bound x : 0 <= idx_1 x < N_DATA.
Proof. unfold idx_1. rewrite N_DATA_value. apply Z.mod_pos_bound. lia. Qed.

Lemma idx_2_bound x : 0 <= idx_2 x < N_DATA.
Proof. unfold idx_2. rewrite N_DATA_value. apply Z.mod_pos_bound. lia. Qed.

Lemma idx_3_bound x : 0 <= idx_3 x < N_DATA.
Proof. unfold idx_3. rewrite N_DATA_value. apply Z.mod_pos_bound. lia. Qed.

Lemma read_H_in_bounds i :
  0 <= i < N_DATA -> read_H init_H i = Some {| handle_slot := Z.to_nat i |}.
Proof.
  intros Hi. unfold read_H. rewrite bool_decide_eq_true_2 by lia.
  unfold init_H. rewrite list_lookup_fmap.
  rewrite lookup_seq_lt by lia. reflexivity.
Qed.

Lemma select_branch_distinct i1 i2 i3 :
  select_branch i1 i2 i3 = BranchAllDistinct <->
  i1 <> i2 /\ i1 <> i3 /\ i2 <> i3.
Proof.
  unfold select_branch.
  destruct (Z.eqb_spec i1 i2), (Z.eqb_spec i1 i3), (Z.eqb_spec i2 i3);
    simpl; split; intros; try discriminate; try lia; auto.
Qed.

Lemma prepare_task_in_bounds x : is_Some (prepare_task init_H x).
Proof.
  unfold prepare_task, branch_task.
  rewrite !read_H_in_bounds
    by auto using idx_1_bound, idx_2_bound, idx_3_bound.
  destruct (select_branch _ _ _); simpl; eauto.
Qed.

Lemma run_loop_unfold H n rng :
  run_loop H (S n) rng =
  t ← prepare_task H (rng_next rng).2;
  ts ← run_loop H n (rng_next rng).1;
  Some (t :: ts).
Proof. reflexivity. Qed.

(** The tasks of [run] are those built for the generated values. *)
Lemma run_loop_generated H n rng :
  run_loop H n rng = mapM (prepare_task H) (generated n rng).
Proof.
  revert rng. induction n as [|n IH]; intros rng; [done|].
  rewrite run_loop_unfold, IH. reflexivity.
Qed.

Lemma run_loop_in_bounds n rng : is_Some (run_loop init_H n rng).
Proof.
  revert rng. induction n as [|n IH]; intros rng; [by eexists|].
  rewrite run_loop_unfold.
  destruct (prepare_task_in_bounds (rng_next rng).2) as [t ->].
  destruct (IH (rng_next rng).1) as [ts ->]. by eexists.
Qed.

(** C10. Every access to the handle array is in bounds: [H] has
    [N_DATA = 128] registered elements, each of the three indices derived
    from a generated value is below [N_DATA], so every read [H[idx]] of
    [run] succeeds, for one iteration and for the whole loop. *)
Theorem handle_accesses_in_bounds :
  N_DATA = 128 /\
  length init_H = Z.to_nat N_DATA /\
  (forall x : Z,
     0 <= idx_1 x < N_DATA /\ 0 <= idx_2 x < N_DATA /\
     0 <= idx_3 x < N_DATA /\
     is_Some (read_H init_H (idx_1 x)) /\
     is_Some (read_H init_H (idx_2 x)) /\
     is_Some (read_H init_H (idx_3 x)) /\
     is_Some (prepare_task init_H x)) /\
  (forall N_TASKS : nat, is_Some (run N_TASKS)).
Proof.
  split; [reflexivity|]. split; [apply init_H_length|]. split.
  - intros x.
    pose proof (idx_1_bound x). pose proof (idx_2_bound x).
    pose proof (idx_3_bound x).
    rewrite !read_H_in_bounds by done.
    repeat split; try lia; eauto using prepare_task_in_bounds.
  - intros n. apply run_loop_in_bounds.
Qed.

(** The first value the generator produces and its three indices. *)
Lemma first_generated :
  generated 1 rng_new = [2665565789183166779] /\
  idx_1 2665565789183166779 = 59 /\
  idx_2 2665565789183166779 = 18 /\
  idx_3 2665565789183166779 = 73.
Proof. repeat split; vm_compute; reflexivity. Qed.

(** C7 (evaluation of the driver).  The generator is seeded with
    [0x92d68ca2]; the first value it produces has three pairwise distinct
    indices (59, 18, 73), and the task built for it carries
    [count2_codelet]: StarPU sees two accesses, both [STARPU_R], on
    [H[59]] and [H[18]]; the third handle is stored but not declared to
    the codelet, and no task of the driver carries [count3_codelet]. *)
Theorem distinct_indices_task_uses_count2 :
  state rng_new = 0x92d68ca2 /\
  generated 1 rng_new = [2665565789183166779] /\
  select_branch (idx_1 2665565789183166779) (idx_2 2665565789183166779)
    (idx_3 2665565789183166779) = BranchAllDistinct /\
  cl <$> prepare_task init_H 2665565789183166779 = Some count2_codelet /\
  handles <$> prepare_task init_H 2665565789183166779 =
    Some [ {| handle_slot := 59 |}; {| handle_slot := 18 |};
           {| handle_slot := 73 |} ] /\
  task_accesses <$> prepare_task init_H 2665565789183166779 =
    Some [ ({| handle_slot := 59 |}, STARPU_R);
           ({| handle_slot := 18 |}, STARPU_R) ] /\
  (forall x t, prepare_task init_H x = Some t -> cl t <> count3_codelet).
Proof.
  repeat split; try (vm_compute; reflexivity).
  intros x t. unfold prepare_task, branch_task.
  rewrite !read_H_in_bounds
    by auto using idx_1_bound, idx_2_bound, idx_3_bound.
  destruct (select_branch _ _ _); simpl; intros [= <-]; discriminate.
Qed.

(** When indices collide the task has one or two accesses, all reads. *)
Lemma colliding_indices_task x t :
  select_branch (idx_1 x) (idx_2 x) (idx_3 x) <> BranchAllDistinct ->
  prepare_task init_H x = Some t ->
  (cl t = count1_codelet /\ length (task_accesses t) = 1%nat) \/
  (cl t = count2_codelet /\ length (task_accesses t) = 2%nat).
Proof.
  unfold prepare_task, branch_task.
  rewrite !read_H_in_bounds
    by auto using idx_1_bound, idx_2_bound, idx_3_bound.
  destruct (select_branch _ _ _); simpl; intros Hb [= <-]; auto;
    by destruct Hb.
Qed.

(** C8 (the claim fails).  It is not the case that no generated value
    reaches the final [else] of [run]: the first one does. *)
Lemma final_else_is_reached :
  ~ (forall n x, x ∈ generated n rng_new ->
       select_branch (idx_1 x) (idx_2 x) (idx_3 x) <> BranchAllDistinct).
Proof.
  intros Hnever.
  apply (Hnever 1%nat 2665565789183166779).
  - destruct first_generated as [-> _]. apply list_elem_of_singleton. done.
  - vm_compute. reflexivity.
Qed.

(** C8 (amended).  The final [else] of [run] is reachable: it is taken
    exactly when the three indices are pairwise distinct, the first
    generated value takes it, and the task built there is given the three
    handles [H[idx_1]], [H[idx_2]] and [H[idx_3]]. *)
Theorem final_else_reachable :
  (forall x,
     select_branch (idx_1 x) (idx_2 x) (idx_3 x) = BranchAllDistinct <->
     idx_1 x <> idx_2 x /\ idx_1 x <> idx_3 x /\ idx_2 x <> idx_3 x) /\
  (exists x, x ∈ generated 1 rng_new /\
     select_branch (idx_1 x) (idx_2 x) (idx_3 x) = BranchAllDistinct) /\
  (forall x,
     select_branch (idx_1 x) (idx_2 x) (idx_3 x) = BranchAllDistinct ->
     handles <$> prepare_task init_H x =
       Some [ {| handle_slot := Z.to_nat (idx_1 x) |};
              {| handle_slot := Z.to_nat (idx_2 x) |};
              {| handle_slot := Z.to_nat (idx_3 x) |} ]).
Proof.
  split; [|split].
  - intros x. apply select_branch_distinct.
  - exists 2665565789183166779. split.
    + destruct first_generated as [-> _]. apply list_elem_of_singleton. done.
    + vm_compute. reflexivity.
  - intros x Hb. unfold prepare_task, branch_task. rewrite Hb.
    rewrite !read_H_in_bounds
      by auto using idx_1_bound, idx_2_bound, idx_3_bound.
    reflexivity.
Qed.

End CounterDepsFacts.

(** ** A general fact on finite sets of tasks *)

Lemma gset_min_tid `{Countable Task} (X : gset (Task * Z)) :
  X <> ∅ -> exists x, x ∈ X /\ forall y, y ∈ X -> x.2 <= y.2.
Proof.
  induction X as [|x X Hx IH] using set_ind_L; [done|]. intros _.
  destruct (decide (X = ∅)) as [->|Hne].
  - exists x. split; [by apply elem_of_union_l, elem_of_singleton|].
    intros y [->%elem_of_singleton|Hy]%elem_of_union; [lia|].
    by apply not_elem_of_empty in Hy.
  - destruct (IH Hne) as (m & Hm & Hmin). destruct (Z_le_gt_dec x.2 m.2).
    + exists x. split; [by apply elem_of_union_l, elem_of_singleton|].
      intros y [->%elem_of_singleton|Hy]%elem_of_union; [lia|].
      specialize (Hmin y Hy). lia.
    + exists m. split; [by apply elem_of_union_r|].
      intros y [->%elem_of_singleton|Hy]%elem_of_union; [lia|auto].
Qed.

Lemma conflicts_spec_ready {Task Data : Type} `{Countable Task}
    (Tasks : Task -> Data -> Dependency) (U : gset (Task * Z)) t tid :
  (forall d x1, x1 ∈ U -> x1.2 < tid ->
     ~ conflicts (Tasks t d) (Tasks x1.1 d)) <->
  spec_ready Tasks U t tid.
Proof.
  split.
  - intros Hc d. split; intros Hk x Hx Hlt; specialize (Hc d x Hx Hlt);
      rewrite Hk in Hc; simpl in Hc; [done|].
    destruct (Tasks x.1 d); [by destruct Hc..|done].
  - intros Hs d x Hx Hlt. destruct (Hs d) as [Hr Hw].
    destruct (Tasks t d) eqn:Hk; simpl.
    + by apply (Hr eq_refl x).
    + intros Hacc. apply Hacc. by apply (Hw eq_refl x).
    + tauto.
Qed.

(** ** Facts about [STFSpec] *)

Section STFFacts.

Context {Task Worker Data : Type} `{Countable Task} `{Countable Worker}.
Variable Tasks : Task -> Data -> Dependency.
Variable Workers : gset Worker.
Variable ControlFlow : gset (Task * Z).

Local Abbreviation State := (@STFSpec.State Task Worker _ _).
Local Abbreviation activeTasks := (STFSpec.activeTasks Workers).
Local Abbreviation pendingTasks := STFSpec.pendingTasks.
Local Abbreviation workerStates := STFSpec.workerStates.
Local Abbreviation TaskReady := (STFSpec.TaskReady Tasks Workers).
Local Abbreviation Next := (STFSpec.Next Tasks Workers).
Local Abbreviation Init := (STFSpec.Init ControlFlow).
Local Abbreviation reachable := (STFSpec.reachable Tasks Workers ControlFlow).
Local Abbreviation Ordered := (STFSpec.Ordered Tasks Workers).
Local Abbreviation DataRaceFreedom := (STFSpec.DataRaceFreedom Tasks Workers).
Local Abbreviation TypeOK := (STFSpec.TypeOK Workers ControlFlow).
Local Abbreviation Started := STFSpec.Started.

Lemma STF_elem_of_activeTasks (s : State) x :
  x ∈ activeTasks s <-> exists w, w ∈ Workers /\ workerStates s w = Some x.
Proof.
  unfold STFSpec.activeTasks, STFSpec.activeWorkers.
  rewrite elem_of_set_omap. split.
  - intros (w & Hw & Hx). apply elem_of_filter in Hw as [_ Hw]. eauto.
  - intros (w & Hw & Hx). exists w. split; [|done].
    apply elem_of_filter. split; [|done]. by rewrite Hx.
Qed.

Lemma STF_activeTasks_start (s s' : State) w x :
  w ∈ Workers -> workerStates s w = None ->
  workerStates s' = <[w := Some x]> (workerStates s) ->
  forall y, y ∈ activeTasks s' <-> y = x \/ y ∈ activeTasks s.
Proof.
  intros Hw Hidle Hws y. rewrite !STF_elem_of_activeTasks, Hws. split.
  - intros (w' & Hw' & Hy). destruct (decide (w = w')) as [<-|Hne].
    + rewrite fn_lookup_insert in Hy. left. congruence.
    + rewrite fn_lookup_insert_ne in Hy by done. right. eauto.
  - intros [->|(w' & Hw' & Hy)].
    + exists w. by rewrite fn_lookup_insert.
    + exists w'. split; [done|].
      rewrite fn_lookup_insert_ne; [done|]. congruence.
Qed.

Lemma STF_activeTasks_stop (s s' : State) w :
  workerStates s' = <[w := None]> (workerStates s) ->
  forall y, y ∈ activeTasks s' ->
    y ∈ activeTasks s /\ workerStates s w <> Some y \/
    y ∈ activeTasks s /\ exists w', w' <> w /\ workerStates s w' = Some y.
Proof.
  intros Hws y. rewrite !STF_elem_of_activeTasks, Hws.
  intros (w' & Hw' & Hy). destruct (decide (w = w')) as [<-|Hne].
  - by rewrite fn_lookup_insert in Hy.
  - rewrite fn_lookup_insert_ne in Hy by done. right. split; eauto.
Qed.

(** Readiness, unfolded: no unfinished earlier task conflicts. *)
Lemma STF_TaskReady_conflicts (s : State) t tid :
  TaskReady s t tid <->
  forall d x1, x1 ∈ pendingTasks s ∪ activeTasks s -> x1.2 < tid ->
    ~ conflicts (Tasks t d) (Tasks x1.1 d).
Proof.
  unfold STFSpec.TaskReady, STFSpec.ReadReady, STFSpec.WriteReady. split.
  - intros Hr d [t1 tid1] Hin Hlt. simpl in *.
    destruct (Hr d) as [Hn|[[Hk Hrd]|[Hk Hwr]]]; rewrite ?Hn, ?Hk; simpl.
    + tauto.
    + destruct (Hrd _ _ Hin) as [E|[E|E]]; rewrite ?E; first [done | lia].
    + destruct (Hwr _ _ Hin) as [E|E]; rewrite ?E; first [tauto | lia].
  - intros Hc d. destruct (Tasks t d) eqn:Hk; [right; left|right; right|by left].
    + split; [done|]. intros t1 tid1 Hin.
      destruct (Z_lt_ge_dec tid1 tid) as [Hlt|Hge]; [|by auto].
      specialize (Hc d (t1, tid1) Hin Hlt). rewrite Hk in Hc. simpl in Hc.
      destruct (Tasks t1 d); auto. by destruct Hc.
    + split; [done|]. intros t1 tid1 Hin.
      destruct (Z_lt_ge_dec tid1 tid) as [Hlt|Hge]; [|by auto].
      specialize (Hc d (t1, tid1) Hin Hlt). rewrite Hk in Hc. simpl in Hc.
      destruct (Tasks t1 d); auto; destruct Hc; done.
Qed.

Lemma STF_Ordered_Init (s : State) : Init s -> Ordered s.
Proof.
  intros [_ Hws] x2 x1 Hx2. apply STF_elem_of_activeTasks in Hx2 as (w & _ & Hx2).
  by rewrite Hws in Hx2.
Qed.

Lemma STF_Ordered_Next (s s' : State) : Next s s' -> Ordered s -> Ordered s'.
Proof.
  intros (w & Hw & [(t & tid & Hpend & Hrdy & Hidle & Hws & Hp)|(Hsome & Hws & Hp)]) Hord.
  - assert (Hsame : forall y, y ∈ pendingTasks s' ∪ activeTasks s' ->
                               y ∈ pendingTasks s ∪ activeTasks s).
    { intros y. rewrite !elem_of_union, Hp, elem_of_difference.
      rewrite (STF_activeTasks_start s s' w (t, tid) Hw Hidle Hws).
      intros [[? _]|[->|?]]; auto. }
    intros x2 x1 Hx2 Hx1 Hlt d.
    apply (STF_activeTasks_start s s' w (t, tid) Hw Hidle Hws) in Hx2 as [->|Hx2].
    + apply STF_TaskReady_conflicts with (d := d) (x1 := x1) in Hrdy; auto.
    + apply Hord; auto.
  - intros x2 x1 Hx2 Hx1 Hlt d. apply Hord; [| |done].
    + apply (STF_activeTasks_stop s s' w Hws) in Hx2. tauto.
    + rewrite elem_of_union in *. rewrite Hp in Hx1.
      destruct Hx1 as [?|Hx1]; [by left|right].
      apply (STF_activeTasks_stop s s' w Hws) in Hx1. tauto.
Qed.

Lemma STF_Ordered_reachable (s : State) : reachable s -> Ordered s.
Proof.
  induction 1; eauto using STF_Ordered_Init, STF_Ordered_Next.
Qed.

Lemma STF_TypeOK_reachable (s : State) : reachable s -> TypeOK s.
Proof.
  induction 1 as [s [Hp Hws]|s s' _ [IHa IHp] Hnext].
  - split; [|by rewrite Hp]. intros x Hx.
    apply STF_elem_of_activeTasks in Hx as (w & _ & Hx). by rewrite Hws in Hx.
  - destruct Hnext as (w & Hw & [(t & tid & Hpend & Hrdy & Hidle & Hws & Hp)|(Hsome & Hws & Hp)]).
    + split.
      * intros y Hy.
        apply (STF_activeTasks_start s s' w (t, tid) Hw Hidle Hws) in Hy as [->|Hy]; auto.
      * rewrite Hp. by apply subseteq_difference_l.
    + split; [|by rewrite Hp].
      intros y Hy. apply (STF_activeTasks_stop s s' w Hws) in Hy. apply IHa. tauto.
Qed.

Lemma Ordered_DataRaceFreedom (s : State) : Ordered s -> DataRaceFreedom s.
Proof.
  intros Hord [t1 tid1] [t2 tid2] H1 H2 d Hw. simpl in *.
  destruct (Z.lt_trichotomy tid1 tid2) as [Hlt|[Heq|Hgt]]; [|by left|].
  - right.
    pose proof (Hord (t2, tid2) (t1, tid1) H2 (elem_of_union_r _ _ _ H1) Hlt d)
      as Hc.
    simpl in Hc. rewrite Hw in Hc.
    destruct (Tasks t2 d); simpl in Hc; try done; by destruct Hc.
  - right.
    pose proof (Hord (t1, tid1) (t2, tid2) H1 (elem_of_union_r _ _ _ H2) Hgt d)
      as Hc.
    simpl in Hc. rewrite Hw in Hc.
    simpl in Hc. destruct (Tasks t2 d); try done; by destruct Hc.
Qed.

(** Data-race freedom in [STFSpec]: in every state reachable from [Init]
    by [Next] steps the formula [DataRaceFreedom] of the module holds, and,
    when task identifiers name tasks, two distinct active tasks never both
    access a data item that one of them writes. *)
Lemma STF_DataRaceFreedom_reachable (s : State) :
  reachable s ->
  DataRaceFreedom s /\
  (unique_tids ControlFlow ->
   forall T1 T2 : Task * Z,
     T1 ∈ activeTasks s -> T2 ∈ activeTasks s -> T1 <> T2 ->
     forall d : Data,
       ~ (Tasks T1.1 d = DepW /\ Tasks T2.1 d <> DepNone) /\
       ~ (Tasks T2.1 d = DepW /\ Tasks T1.1 d <> DepNone)).
Proof.
  intros Hreach.
  pose proof (Ordered_DataRaceFreedom s (STF_Ordered_reachable s Hreach)) as Hdrf.
  split; [done|].
  intros Huniq [t1 tid1] [t2 tid2] H1 H2 Hne d.
  destruct (STF_TypeOK_reachable s Hreach) as [Hact _].
  assert (tid1 <> tid2) as Htid.
  { intros ->. apply Hne. f_equal. eapply Huniq; eauto. }
  split; intros [Hw Hacc].
  - destruct (Hdrf _ _ H1 H2 d Hw); simpl in *; congruence.
  - destruct (Hdrf _ _ H2 H1 d Hw); simpl in *; congruence.
Qed.

(** *** Termination of [STFSpec] *)

Lemma STF_Started_reachable (s : State) : reachable s -> Started s.
Proof.
  induction 1 as [s [Hp Hws]|s s' _ [IH1 IH2] Hnext].
  - split; intros *; by rewrite Hws.
  - destruct Hnext as (w & Hw & [(t & tid & Hpend & Hrdy & Hidle & Hws & Hp)
                                |(Hsome & Hws & Hp)]).
    + split.
      * intros w' x. rewrite Hws, Hp, elem_of_difference, elem_of_singleton.
        destruct (decide (w = w')) as [<-|Hne].
        -- rewrite fn_lookup_insert. intros [= <-]. tauto.
        -- rewrite fn_lookup_insert_ne by done. intros Hx [Hin _].
           by apply (IH1 w' x).
      * intros w1 w2 x. rewrite Hws.
        destruct (decide (w = w1)) as [<-|Hne1],
                 (decide (w = w2)) as [<-|Hne2];
          rewrite ?fn_lookup_insert, ?fn_lookup_insert_ne by done.
        -- done.
        -- intros [= <-] Hx. by destruct (IH1 w2 _ Hx).
        -- intros Hx [= <-]. by destruct (IH1 w1 _ Hx).
        -- apply IH2.
    + split.
      * intros w' x. rewrite Hws, Hp.
        destruct (decide (w = w')) as [<-|Hne].
        -- by rewrite fn_lookup_insert.
        -- rewrite fn_lookup_insert_ne by done. apply IH1.
      * intros w1 w2 x. rewrite Hws.
        destruct (decide (w = w1)) as [<-|Hne1];
          [by rewrite fn_lookup_insert|].
        destruct (decide (w = w2)) as [<-|Hne2];
          [by rewrite fn_lookup_insert|].
        rewrite !fn_lookup_insert_ne by done. apply IH2.
Qed.

Lemma STF_remaining_Next (s s' : State) :
  Started s -> Next s s' ->
  (STFSpec.remaining Workers s' < STFSpec.remaining Workers s)%nat.
Proof.
  intros [I1 I2] (w & Hw & [(t & tid & Hpend & Hrdy & Hidle & Hws & Hp)
                           |([x Hx] & Hws & Hp)]);
    unfold STFSpec.remaining.
  - assert (pendingTasks s' ⊂ pendingTasks s) as Hsub.
    { rewrite Hp. split; [by apply subseteq_difference_l|].
      intros Hsub. specialize (Hsub _ Hpend).
      rewrite elem_of_difference, elem_of_singleton in Hsub. tauto. }
    assert (pendingTasks s' ∪ activeTasks s'
              ⊆ pendingTasks s ∪ activeTasks s) as Hle.
    { intros y. rewrite !elem_of_union.
      rewrite (STF_activeTasks_start s s' w (t, tid) Hw Hidle Hws).
      rewrite Hp, elem_of_difference. intros [[? _]|[->|?]]; auto. }
    apply subset_size in Hsub. apply subseteq_size in Hle. lia.
  - rewrite Hp.
    assert (pendingTasks s ∪ activeTasks s'
              ⊂ pendingTasks s ∪ activeTasks s) as Hsub.
    { split.
      - intros y. rewrite !elem_of_union. intros [?|Hy]; [by left|right].
        apply (STF_activeTasks_stop s s' w Hws) in Hy. tauto.
      - intros Hsub. specialize (Hsub x).
        rewrite !elem_of_union in Hsub. destruct Hsub as [Hin|Hin].
        + right. apply STF_elem_of_activeTasks. eauto.
        + by apply (I1 w x).
        + apply (STF_activeTasks_stop s s' w Hws) in Hin
            as [[_ Hne]|[_ (w' & Hne & Hx')]]; [done|].
          apply Hne. by apply (I2 w' w x). }
    apply subset_size in Hsub. lia.
Qed.

Lemma STF_progress (s : State) :
  Workers <> ∅ -> pendingTasks s ∪ activeTasks s <> ∅ ->
  STFSpec.Enabled Tasks Workers s.
Proof.
  intros Hwk Hne.
  destruct (decide (activeTasks s = ∅)) as [Hidle|Hact].
  - assert (pendingTasks s <> ∅) as Hp.
    { intros Hp. apply Hne. by rewrite Hp, Hidle, (left_id_L ∅ (∪)). }
    destruct (gset_min_tid _ Hp) as ([t tid] & Hx & Hmin).
    apply set_choose_L in Hwk as [w Hw].
    assert (workerStates s w = None) as Hnone.
    { destruct (workerStates s w) as [y|] eqn:Hy; [|done].
      assert (y ∈ activeTasks s) as Hin
        by (apply STF_elem_of_activeTasks; eauto).
      rewrite Hidle in Hin. by apply not_elem_of_empty in Hin. }
    exists (STFSpec.mkState (pendingTasks s ∖ {[ (t, tid) ]})
              (<[w := Some (t, tid)]> (workerStates s))).
    split.
    + exists w. split; [done|]. left. exists t, tid. split; [done|].
      split; [|done]. apply STF_TaskReady_conflicts. intros d x1 Hx1 Hlt.
      rewrite Hidle, (right_id_L ∅ (∪)) in Hx1.
      specialize (Hmin x1 Hx1). simpl in Hmin. lia.
    + intros Heq. apply (f_equal (fun s => workerStates s w)) in Heq.
      simpl in Heq. by rewrite fn_lookup_insert, Hnone in Heq.
  - apply set_choose_L in Hact as (x & Hx).
    apply STF_elem_of_activeTasks in Hx as (w & Hw & Hx).
    exists (STFSpec.mkState (pendingTasks s) (<[w := None]> (workerStates s))).
    split.
    + exists w. split; [done|]. right. split; [by exists x|done].
    + intros Heq. apply (f_equal (fun s => workerStates s w)) in Heq.
      simpl in Heq. by rewrite fn_lookup_insert, Hx in Heq.
Qed.

Lemma STF_behaviour_reachable (b : nat -> State) :
  Init (b O) -> (forall n, Next (b n) (b (S n)) \/ b (S n) = b n) ->
  forall n, reachable (b n).
Proof.
  intros Hinit Hstep n. induction n as [|n IH].
  - by constructor.
  - destruct (Hstep n) as [Hn| ->]; [|done]. by econstructor 2.
Qed.

(** The second half of the theorem of [STFSpec], [Spec => <>Terminated]:
    with at least one worker, every behaviour of the abstract model
    reaches a state without pending or active tasks. *)
Theorem STF_terminates (b : nat -> State) :
  Workers <> ∅ ->
  STFSpec.Spec Tasks Workers ControlFlow b ->
  exists n, STFSpec.Terminated Workers (b n).
Proof.
  intros Hwk (Hinit & Hstep & Hfair).
  assert (forall n, Started (b n)) as HI.
  { intros n. by apply STF_Started_reachable, STF_behaviour_reachable. }
  assert (forall n m, (n <= m)%nat ->
            (STFSpec.remaining Workers (b m)
               <= STFSpec.remaining Workers (b n))%nat) as Hmono.
  { intros n m Hnm. induction Hnm as [|m Hnm IH]; [done|].
    destruct (Hstep m) as [Hn|Hn]; [|by rewrite Hn].
    apply STF_remaining_Next in Hn; [lia|done]. }
  assert (forall k n, (STFSpec.remaining Workers (b n) <= k)%nat ->
            exists m, (n <= m)%nat /\
              pendingTasks (b m) ∪ activeTasks (b m) = ∅) as Hmain.
  { induction k as [k IH] using lt_wf_ind. intros n Hk.
    destruct (classic (exists m, (n <= m)%nat /\
                pendingTasks (b m) ∪ activeTasks (b m) = ∅)) as [|Hno];
      [done|].
    destruct (Hfair n) as (m & Hm & Hnext & _).
    { intros m Hm. apply STF_progress; [done|]. intros He. apply Hno. eauto. }
    pose proof (STF_remaining_Next _ _ (HI m) Hnext) as Hlt.
    pose proof (Hmono n m Hm) as Hle.
    destruct (IH (STFSpec.remaining Workers (b (S m))) ltac:(lia)
                (S m) ltac:(lia)) as (m' & Hm' & Hdone).
    exists m'. split; [lia|done]. }
  destruct (Hmain _ O (le_n _)) as (n & _ & Hdone). by exists n.
Qed.

End STFFacts.

(** ** Facts about [RunInOrder] *)

Section RunInOrderFacts.

Context {Task Worker Data : Type} `{Countable Task} `{Countable Worker}.
Variable Tasks : Task -> Data -> Dependency.
Variable Workers : gset Worker.
Variable ControlFlow : gset (Task * Z).
Variable Mapping : Z -> Worker.

Local Abbreviation State := (@RunInOrder.State Task Worker _ _).
Local Abbreviation pendingTasks := (RunInOrder.pendingTasks Workers).
Local Abbreviation activeTasks := (RunInOrder.activeTasks Workers).
Local Abbreviation workerStates := RunInOrder.workerStates.
Local Abbreviation workerPendingTasks := RunInOrder.workerPendingTasks.
Local Abbreviation terminatedTasks := RunInOrder.terminatedTasks.
Local Abbreviation Init := (RunInOrder.Init ControlFlow Mapping).
Local Abbreviation TypeOK := (RunInOrder.TypeOK Workers ControlFlow).
Local Abbreviation ReadReady := (RunInOrder.ReadReady Tasks ControlFlow).
Local Abbreviation WriteReady := (RunInOrder.WriteReady Tasks ControlFlow).
Local Abbreviation TaskReady := (RunInOrder.TaskReady Tasks ControlFlow).
Local Abbreviation ExecuteTask := (RunInOrder.ExecuteTask Tasks ControlFlow).
Local Abbreviation TerminateTask := RunInOrder.TerminateTask.
Local Abbreviation Next := (RunInOrder.Next Tasks Workers ControlFlow).
Local Abbreviation Enabled := (RunInOrder.Enabled Tasks Workers ControlFlow).
Local Abbreviation WF := (RunInOrder.WF Tasks Workers ControlFlow).
Local Abbreviation Spec := (RunInOrder.Spec Tasks Workers ControlFlow Mapping).
Local Abbreviation reachable :=
  (RunInOrder.reachable Tasks Workers ControlFlow Mapping).
Local Abbreviation Inv := (RunInOrder.Inv Workers ControlFlow Mapping).
Local Abbreviation STF := (RunInOrder.STF Workers).
Local Abbreviation remaining := (RunInOrder.remaining Workers ControlFlow).
Local Abbreviation started := RunInOrder.started.
Local Abbreviation executed := RunInOrder.executed.
Local Abbreviation submission_order := RunInOrder.submission_order.
Local Abbreviation STF_TaskReady := (STFSpec.TaskReady Tasks Workers).
Local Abbreviation STF_Init := (STFSpec.Init ControlFlow).
Local Abbreviation STF_Next := (STFSpec.Next Tasks Workers).
Local Abbreviation STF_Enabled := (STFSpec.Enabled Tasks Workers).
Local Abbreviation STF_Spec := (STFSpec.Spec Tasks Workers ControlFlow).
Local Abbreviation STF_Terminated := (STFSpec.Terminated Workers).
Local Abbreviation STF_reachable :=
  (STFSpec.reachable Tasks Workers ControlFlow).

Lemma elem_of_pendingTasks (s : State) x :
  x ∈ pendingTasks s <-> exists w, w ∈ Workers /\ x ∈ workerPendingTasks s w.
Proof.
  unfold RunInOrder.pendingTasks. rewrite elem_of_union_list. split.
  - intros (X & HX & Hx). apply list_elem_of_fmap in HX as (w & -> & Hw).
    apply elem_of_elements in Hw. eauto.
  - intros (w & Hw & Hx). exists (workerPendingTasks s w). split; [|done].
    apply list_elem_of_fmap. exists w. split; [done|].
    by apply elem_of_elements.
Qed.

Lemma elem_of_activeTasks (s : State) x :
  x ∈ activeTasks s <-> exists w, w ∈ Workers /\ workerStates s w = Some x.
Proof. apply (STF_elem_of_activeTasks Workers (STF s)). Qed.

Lemma Inv_Init (s : State) : Init s -> Inv s.
Proof.
  intros (Hterm & Hws & Hwpt). unfold RunInOrder.Inv.
  rewrite Hterm, Hws, Hwpt. split; [|split; [|split]].
  - intros w x [Hm Hx]%elem_of_filter. done.
  - intros w x. done.
  - intros x Hx. by apply not_elem_of_empty in Hx.
  - intros x Hx. left. apply elem_of_filter. done.
Qed.

Lemma Inv_Next (s s' : State) : Next s s' -> Inv s -> Inv s'.
Proof.
  intros (w & Hw & [Hex|Htm]) (I1 & I2 & I3 & I4).
  - destruct Hex as (Hidle & t & tid & Hin & Hmin & Hrdy & Hwpt & Hws & Hterm).
    destruct (I1 _ _ Hin) as [HCF HM]. simpl in HM.
    assert (Hnt : (t, tid) ∉ terminatedTasks s).
    { intros Ht. apply I3 in Ht as [_ Hn]. simpl in Hn. by rewrite HM in Hn. }
    unfold RunInOrder.Inv. rewrite Hwpt, Hws, Hterm. split; [|split; [|split]].
    + intros w' x. destruct (decide (w = w')) as [<-|Hne].
      * rewrite fn_lookup_insert. intros [Hx _]%elem_of_difference. auto.
      * rewrite fn_lookup_insert_ne by done. auto.
    + intros w' x. destruct (decide (w = w')) as [<-|Hne].
      * rewrite !fn_lookup_insert. intros [= <-].
        repeat split; auto. rewrite elem_of_difference, elem_of_singleton. tauto.
      * rewrite !fn_lookup_insert_ne by done. apply I2.
    + intros x Hx. destruct (I3 _ Hx) as [? Hn]. split; [done|].
      destruct (decide (w = Mapping x.2)) as [Heq|Hne].
      * rewrite <- Heq in Hn |- *.
        rewrite fn_lookup_insert, elem_of_difference. tauto.
      * by rewrite fn_lookup_insert_ne.
    + intros x Hx. destruct (decide (w = Mapping x.2)) as [Heq|Hne].
      * rewrite <- Heq, !fn_lookup_insert.
        destruct (decide (x = (t, tid))) as [->|Hnx]; [by right; left|].
        destruct (I4 _ Hx) as [Hp|[Ha|Ht]]; [left| |by auto].
        -- rewrite <- Heq in Hp.
           rewrite elem_of_difference, elem_of_singleton. tauto.
        -- rewrite <- Heq in Ha. unfold RunInOrder.Idle in Hidle. congruence.
      * rewrite !fn_lookup_insert_ne by done. by apply I4.
  - destruct Htm as (x0 & Hrun & Hws & Hterm & Hwpt).
    destruct (I2 _ _ Hrun) as (_ & HCF & HM & Hnp & Hnt).
    unfold RunInOrder.Inv. rewrite Hwpt, Hws, Hterm. split; [|split; [|split]].
    + done.
    + intros w' x. destruct (decide (w = w')) as [<-|Hne].
      * by rewrite fn_lookup_insert.
      * rewrite fn_lookup_insert_ne by done. intros Hx.
        destruct (I2 _ _ Hx) as (? & ? & HM' & ? & ?). repeat split; auto.
        rewrite elem_of_union, elem_of_singleton. intros [Hold| ->]; [done|].
        congruence.
    + intros x. rewrite elem_of_union, elem_of_singleton. intros [Hx| ->].
      * by apply I3.
      * by rewrite HM.
    + intros x Hx. destruct (I4 _ Hx) as [Hp|[Ha|Ht]]; [by left| |].
      * destruct (decide (w = Mapping x.2)) as [Heq|Hne].
        -- right; right. rewrite <- Heq in Ha.
           rewrite elem_of_union, elem_of_singleton. right. congruence.
        -- right; left. by rewrite fn_lookup_insert_ne.
      * right; right. rewrite elem_of_union. by left.
Qed.

Lemma Inv_reachable (s : State) : reachable s -> Inv s.
Proof. induction 1; eauto using Inv_Init, Inv_Next. Qed.

(** The states of a behaviour that satisfies the safety part of [Spec]
    are reachable. *)
Lemma behaviour_reachable (b : nat -> State) :
  Init (b O) -> (forall n, Next (b n) (b (S n)) \/ b (S n) = b n) ->
  forall n, reachable (b n).
Proof.
  intros Hinit Hstep n. induction n as [|n IH].
  - by constructor.
  - destruct (Hstep n) as [Hn| ->]; [|done]. by econstructor 2.
Qed.

Lemma pendingTasks_Inv (s : State) x :
  Inv s -> x ∈ pendingTasks s ->
  x ∈ ControlFlow /\ (x ∉ terminatedTasks s) /\
  x ∈ workerPendingTasks s (Mapping x.2) /\ Mapping x.2 ∈ Workers.
Proof.
  intros (I1 & _ & I3 & _) (w & Hw & Hx)%elem_of_pendingTasks.
  destruct (I1 _ _ Hx) as [HCF HM]. rewrite HM. repeat split; auto.
  intros Ht. apply I3 in Ht as [_ Hn]. by rewrite HM in Hn.
Qed.

Lemma activeTasks_Inv (s : State) x :
  Inv s -> x ∈ activeTasks s ->
  x ∈ ControlFlow /\ (x ∉ terminatedTasks s) /\
  workerStates s (Mapping x.2) = Some x /\ x ∉ pendingTasks s.
Proof.
  intros HI (w & Hw & Hx)%elem_of_activeTasks.
  destruct HI as (I1 & I2 & I3 & I4).
  destruct (I2 _ _ Hx) as (_ & HCF & HM & Hnp & Hnt). rewrite HM.
  repeat split; auto.
  intros (w' & Hw' & Hx')%elem_of_pendingTasks.
  destruct (I1 _ _ Hx') as [_ HM']. congruence.
Qed.

Lemma ControlFlow_cases (s : State) x :
  Inv s -> maps_to_workers Workers ControlFlow Mapping -> x ∈ ControlFlow ->
  x ∈ pendingTasks s \/ x ∈ activeTasks s \/ x ∈ terminatedTasks s.
Proof.
  intros HI Hmap Hx. pose proof HI as (I1 & I2 & I3 & I4).
  assert (Mapping x.2 ∈ Workers) as Hw.
  { destruct x as [t tid]. by apply (Hmap t tid). }
  destruct (I4 _ Hx) as [Hp|[Ha|Ht]]; [left|right; left|by right; right].
  - apply elem_of_pendingTasks. eauto.
  - apply elem_of_activeTasks. eauto.
Qed.

Lemma TypeOK_Inv (s : State) :
  Inv s -> maps_to_workers Workers ControlFlow Mapping -> TypeOK s.
Proof.
  intros HI Hmap. apply set_eq. intros x. rewrite !elem_of_union. split.
  - intros [[Hp|Ha]|Ht].
    + by apply pendingTasks_Inv in Hp as [? _].
    + by apply activeTasks_Inv in Ha as [? _].
    + destruct HI as (_ & _ & I3 & _). by apply I3.
  - intros Hx. destruct (ControlFlow_cases s x HI Hmap Hx) as [?|[?|?]]; auto.
Qed.

(** Readiness in [RunInOrder], unfolded. *)
Lemma TaskReady_conflicts (s : State) t tid :
  TaskReady s t tid <->
  forall d x1, x1 ∈ ControlFlow -> x1 ∉ terminatedTasks s -> x1.2 < tid ->
    ~ conflicts (Tasks t d) (Tasks x1.1 d).
Proof.
  unfold RunInOrder.TaskReady, RunInOrder.ReadReady, RunInOrder.WriteReady.
  split.
  - intros Hr d [t1 tid1] Hin Hnt Hlt. simpl in *.
    destruct (Hr d) as [Hn|[[Hk Hrd]|[Hk Hwr]]]; rewrite ?Hn, ?Hk; simpl.
    + tauto.
    + destruct (Hrd _ _ Hin) as [E|[E|[E|E]]]; rewrite ?E;
        first [done | lia].
    + destruct (Hwr _ _ Hin) as [E|[E|E]]; rewrite ?E;
        first [tauto | lia].
  - intros Hc d. destruct (Tasks t d) eqn:Hk; [right; left|right; right|by left].
    + split; [done|]. intros t1 tid1 Hin.
      destruct (Z_lt_ge_dec tid1 tid) as [Hlt|Hge]; [|right; right; left; lia].
      destruct (decide ((t1, tid1) ∈ terminatedTasks s)) as [?|Hnt]; [by auto|].
      specialize (Hc d (t1, tid1) Hin Hnt Hlt). rewrite Hk in Hc. simpl in Hc.
      destruct (Tasks t1 d); auto. by destruct Hc.
    + split; [done|]. intros t1 tid1 Hin.
      destruct (Z_lt_ge_dec tid1 tid) as [Hlt|Hge]; [|right; left; lia].
      destruct (decide ((t1, tid1) ∈ terminatedTasks s)) as [?|Hnt]; [by auto|].
      specialize (Hc d (t1, tid1) Hin Hnt Hlt). rewrite Hk in Hc. simpl in Hc.
      destruct (Tasks t1 d); auto; destruct Hc; done.
Qed.

(** On the states that satisfy the invariant, the readiness predicates of
    the two modules agree. *)
Lemma TaskReady_STF (s : State) t tid :
  Inv s -> TaskReady s t tid -> STF_TaskReady (STF s) t tid.
Proof.
  intros HI Hr. apply STF_TaskReady_conflicts. intros d x1 Hin Hlt.
  apply (proj1 (TaskReady_conflicts s t tid) Hr d x1); [| |done].
  - apply elem_of_union in Hin as [Hp|Ha].
    + by apply (pendingTasks_Inv s x1 HI) in Hp as [? _].
    + by apply (activeTasks_Inv s x1 HI) in Ha as [? _].
  - apply elem_of_union in Hin as [Hp|Ha].
    + by apply (pendingTasks_Inv s x1 HI) in Hp as (_ & ? & _).
    + by apply (activeTasks_Inv s x1 HI) in Ha as (_ & ? & _).
Qed.

Lemma STF_TaskReady_RunInOrder (s : State) t tid :
  Inv s -> maps_to_workers Workers ControlFlow Mapping ->
  STF_TaskReady (STF s) t tid -> TaskReady s t tid.
Proof.
  intros HI Hmap Hr. apply TaskReady_conflicts. intros d x1 Hin Hnt Hlt.
  apply (proj1 (STF_TaskReady_conflicts Tasks Workers (STF s) t tid) Hr d x1);
    [|done].
  apply elem_of_union.
  destruct (ControlFlow_cases s x1 HI Hmap Hin) as [?|[?|?]]; auto. done.
Qed.

(** *** Step simulation *)

Lemma Init_STF (s : State) :
  maps_to_workers Workers ControlFlow Mapping -> Init s -> STF_Init (STF s).
Proof.
  intros Hmap Hinit. pose proof (Inv_Init s Hinit) as HI.
  destruct Hinit as (Hterm & Hws & Hwpt). split; [|done]. simpl.
  apply set_eq. intros x. split.
  - intros Hx. by apply (pendingTasks_Inv s x HI) in Hx as [? _].
  - intros Hx. destruct (ControlFlow_cases s x HI Hmap Hx) as [?|[Ha|Ht]]; [done| |].
    + apply elem_of_activeTasks in Ha as (w & _ & Ha). by rewrite Hws in Ha.
    + rewrite Hterm in Ht. by apply not_elem_of_empty in Ht.
Qed.

Lemma pendingTasks_ExecuteTask (s s' : State) w x :
  Inv s -> w ∈ Workers -> x ∈ workerPendingTasks s w ->
  workerPendingTasks s' =
    <[w := workerPendingTasks s w ∖ {[ x ]}]> (workerPendingTasks s) ->
  pendingTasks s' = pendingTasks s ∖ {[ x ]}.
Proof.
  intros (I1 & _) Hw Hin Hwpt. apply set_eq. intros y.
  rewrite elem_of_difference, !elem_of_pendingTasks, Hwpt, elem_of_singleton.
  split.
  - intros (w' & Hw' & Hy). destruct (decide (w = w')) as [<-|Hne].
    + rewrite fn_lookup_insert, elem_of_difference, elem_of_singleton in Hy.
      split; [exists w|]; tauto.
    + rewrite fn_lookup_insert_ne in Hy by done. split; [by exists w'|].
      intros ->. destruct (I1 _ _ Hin), (I1 _ _ Hy). congruence.
  - intros [(w' & Hw' & Hy) Hne]. exists w'. split; [done|].
    destruct (decide (w = w')) as [<-|Hnw].
    + by rewrite fn_lookup_insert, elem_of_difference, elem_of_singleton.
    + by rewrite fn_lookup_insert_ne.
Qed.

Lemma Next_STF (s s' : State) :
  Inv s -> Next s s' -> STF_Next (STF s) (STF s').
Proof.
  intros HI (w & Hw & [Hex|Htm]); exists w; (split; [done|]).
  - destruct Hex as (Hidle & t & tid & Hin & Hmin & Hrdy & Hwpt & Hws & Hterm).
    left. exists t, tid. split.
    + apply elem_of_pendingTasks. eauto.
    + split; [by apply TaskReady_STF|]. split; [done|]. split; [done|].
      by apply (pendingTasks_ExecuteTask s s' w).
  - destruct Htm as (x0 & Hrun & Hws & Hterm & Hwpt). right.
    split; [by exists x0|]. split; [done|]. simpl.
    unfold RunInOrder.pendingTasks. by rewrite Hwpt.
Qed.

(** Every [Next] step changes [workerStates], hence the state of both
    modules. *)
Lemma Next_workerStates (s s' : State) :
  Next s s' -> workerStates s' <> workerStates s.
Proof.
  intros (w & Hw & [Hex|Htm]) Heq.
  - destruct Hex as (Hidle & t & tid & _ & _ & _ & _ & Hws & _).
    rewrite Heq in Hws. apply (f_equal (fun f => f w)) in Hws.
    rewrite fn_lookup_insert, Hidle in Hws. done.
  - destruct Htm as (x0 & Hrun & Hws & _).
    rewrite Heq in Hws. apply (f_equal (fun f => f w)) in Hws.
    rewrite fn_lookup_insert, Hrun in Hws. done.
Qed.

Lemma Next_STF_changes (s s' : State) : Next s s' -> STF s' <> STF s.
Proof.
  intros Hnext Heq. apply (Next_workerStates s s' Hnext).
  by apply (f_equal STFSpec.workerStates) in Heq.
Qed.

Lemma Next_changes (s s' : State) : Next s s' -> s' <> s.
Proof. intros Hnext ->. by apply (Next_workerStates s s). Qed.

(** *** Progress: an unfinished state has an enabled step *)

Lemma progress (s : State) :
  Inv s -> maps_to_workers Workers ControlFlow Mapping ->
  pendingTasks s ∪ activeTasks s <> ∅ -> Enabled s.
Proof.
  intros HI Hmap Hne.
  destruct (decide (activeTasks s = ∅)) as [Hidle|Hact].
  - (* all workers idle: the pending task with the least identifier *)
    assert (pendingTasks s <> ∅) as Hp.
    { intros Hp. apply Hne. by rewrite Hp, Hidle, (left_id_L ∅ (∪)). }
    destruct (gset_min_tid _ Hp) as ([t tid] & Hx & Hmin).
    destruct (pendingTasks_Inv s _ HI Hx) as (HCF & Hnt & Hq & Hw).
    simpl in Hq, Hw. set (w := Mapping tid) in *.
    assert (forall w', w' ∈ Workers -> workerStates s w' = None) as Hnone.
    { intros w' Hw'. destruct (workerStates s w') as [y|] eqn:Hy; [|done].
      assert (y ∈ activeTasks s) as Hin by (apply elem_of_activeTasks; eauto).
      rewrite Hidle in Hin. by apply not_elem_of_empty in Hin. }
    set (s' := RunInOrder.mkState
                 (<[w := workerPendingTasks s w ∖ {[ (t, tid) ]}]>
                    (workerPendingTasks s))
                 (terminatedTasks s)
                 (<[w := Some (t, tid)]> (workerStates s))).
    assert (Next s s') as Hnext.
    { exists w. split; [done|]. left. split; [by apply Hnone|].
      exists t, tid. split; [done|]. split.
      - intros ot otid Ho. apply (Hmin (ot, otid)).
        apply elem_of_pendingTasks. eauto.
      - split; [|done]. apply TaskReady_conflicts.
        intros d x1 Hx1 Hnt1 Hlt.
        destruct (ControlFlow_cases s x1 HI Hmap Hx1) as [Hp1|[Ha1|Ht1]].
        + specialize (Hmin x1 Hp1). simpl in Hmin. lia.
        + rewrite Hidle in Ha1. by apply not_elem_of_empty in Ha1.
        + done. }
    exists s'. split; [done|]. by apply Next_changes.
  - (* some worker is active: it can terminate its task *)
    apply set_choose_L in Hact as (x & Hx).
    apply elem_of_activeTasks in Hx as (w & Hw & Hx).
    set (s' := RunInOrder.mkState (workerPendingTasks s)
                 (terminatedTasks s ∪ {[ x ]})
                 (<[w := None]> (workerStates s))).
    assert (Next s s') as Hnext.
    { exists w. split; [done|]. right. exists x. done. }
    exists s'. split; [done|]. by apply Next_changes.
Qed.

Lemma STF_Enabled_unfinished (s : State) :
  STF_Enabled (STF s) -> pendingTasks s ∪ activeTasks s <> ∅.
Proof.
  intros (s' & (w & Hw & [(t & tid & Hin & _)|([x Hx] & _)]) & _) Hempty.
  - simpl in Hin. assert ((t, tid) ∈ pendingTasks s ∪ activeTasks s) as Hc
      by (apply elem_of_union; by left).
    rewrite Hempty in Hc. by apply not_elem_of_empty in Hc.
  - simpl in Hx. assert (x ∈ pendingTasks s ∪ activeTasks s) as Hc.
    { apply elem_of_union. right. apply elem_of_activeTasks. eauto. }
    rewrite Hempty in Hc. by apply not_elem_of_empty in Hc.
Qed.

Lemma reachable_STF (s : State) :
  maps_to_workers Workers ControlFlow Mapping ->
  reachable s -> STF_reachable (STF s).
Proof.
  intros Hmap. induction 1 as [s Hinit|s s' Hs IH Hnext].
  - constructor. by apply Init_STF.
  - econstructor 2; [done|]. apply Next_STF; [|done]. by apply Inv_reachable.
Qed.

(** The in-order model inherits data-race freedom from the abstract one;
    this needs no assumption on the constants. *)
Lemma Ordered_STF_reachable (s : State) :
  reachable s -> STFSpec.Ordered Tasks Workers (STF s).
Proof.
  induction 1 as [s Hinit|s s' Hs IH Hnext].
  - destruct Hinit as (_ & Hws & _). intros x2 x1 Hx2.
    apply elem_of_activeTasks in Hx2 as (w & _ & Hx2). by rewrite Hws in Hx2.
  - apply (STF_Ordered_Next Tasks Workers (STF s)); [|done].
    apply Next_STF; [|done]. by apply Inv_reachable.
Qed.

Corollary RunInOrder_DataRaceFreedom (s : State) :
  reachable s -> STFSpec.DataRaceFreedom Tasks Workers (STF s).
Proof. intros Hs. by apply Ordered_DataRaceFreedom, Ordered_STF_reachable. Qed.

(** Two distinct active tasks of the in-order model run on different
    workers, hence have different identifiers, and do not conflict. *)
Corollary RunInOrder_no_data_race (s : State) (T1 T2 : Task * Z) (d : Data) :
  reachable s ->
  T1 ∈ activeTasks s -> T2 ∈ activeTasks s -> T1 <> T2 ->
  ~ (Tasks T1.1 d = DepW /\ Tasks T2.1 d <> DepNone).
Proof.
  intros Hs H1 H2 Hne [Hw Hacc].
  pose proof (Inv_reachable s Hs) as HI.
  destruct (activeTasks_Inv s T1 HI H1) as (_ & _ & Hw1 & _).
  destruct (activeTasks_Inv s T2 HI H2) as (_ & _ & Hw2 & _).
  destruct (RunInOrder_DataRaceFreedom s Hs T1 T2 H1 H2 d Hw) as [Htid|Hnone];
    [|done].
  apply Hne. rewrite Htid in Hw1. congruence.
Qed.

(** C3. Data-race freedom is an invariant.  In every state of [STFSpec]
    reachable from [Init] by [Next] steps the formula [DataRaceFreedom]
    holds, and, task identifiers being unique, two distinct active tasks
    never both access a data item that one of them writes.  In every
    reachable state of the in-order model the same holds, with no
    assumption: there, distinct active tasks always have distinct
    identifiers. *)
Theorem DataRaceFreedom_invariant :
  (forall s : @STFSpec.State Task Worker _ _,
     STF_reachable s ->
     STFSpec.DataRaceFreedom Tasks Workers s /\
     (unique_tids ControlFlow ->
      forall T1 T2 : Task * Z,
        T1 ∈ STFSpec.activeTasks Workers s ->
        T2 ∈ STFSpec.activeTasks Workers s -> T1 <> T2 ->
        forall d : Data,
          ~ (Tasks T1.1 d = DepW /\ Tasks T2.1 d <> DepNone) /\
          ~ (Tasks T2.1 d = DepW /\ Tasks T1.1 d <> DepNone))) /\
  (forall s : State,
     reachable s ->
     STFSpec.DataRaceFreedom Tasks Workers (STF s) /\
     forall T1 T2 : Task * Z,
       T1 ∈ activeTasks s -> T2 ∈ activeTasks s -> T1 <> T2 ->
       forall d : Data,
         ~ (Tasks T1.1 d = DepW /\ Tasks T2.1 d <> DepNone) /\
         ~ (Tasks T2.1 d = DepW /\ Tasks T1.1 d <> DepNone)).
Proof.
  split.
  - intros s Hs. by apply STF_DataRaceFreedom_reachable.
  - intros s Hs. split; [by apply RunInOrder_DataRaceFreedom|].
    intros T1 T2 H1 H2 Hne d. split.
    + by apply (RunInOrder_no_data_race s T1 T2 d).
    + by apply (RunInOrder_no_data_race s T2 T1 d).
Qed.

(** C1. The refinement theorem [Spec => STF!Spec]: under the mapping of the
    variables given by [INSTANCE STFSpec], every behaviour of [RunInOrder]
    (initial condition, steps and weak fairness) is a behaviour of
    [STFSpec], for all [Tasks], [Workers], [ControlFlow] and every
    [Mapping] that sends the tasks of the control flow to workers. *)
Theorem RunInOrder_implements_STF (b : nat -> State) :
  maps_to_workers Workers ControlFlow Mapping ->
  Spec b -> STF_Spec (fun n => STF (b n)).
Proof.
  intros Hmap (Hinit & Hstep & Hfair).
  assert (forall n, Inv (b n)) as HI.
  { intros n. apply Inv_reachable. by apply behaviour_reachable. }
  split; [by apply Init_STF|]. split.
  - intros n. destruct (Hstep n) as [Hn|Hn].
    + left. by apply Next_STF.
    + right. by rewrite Hn.
  - intros n Hen.
    destruct (Hfair n) as (m & Hm & Hnext & _).
    { intros m Hm. apply progress; [done..|].
      by apply STF_Enabled_unfinished, Hen. }
    exists m. split; [done|]. split.
    + by apply Next_STF.
    + by apply Next_STF_changes.
Qed.

(** *** Termination *)

Lemma remaining_Next (s s' : State) :
  Inv s -> Next s s' -> (remaining s' < remaining s)%nat.
Proof.
  intros HI (w & Hw & [Hex|Htm]); unfold RunInOrder.remaining.
  - destruct Hex as (Hidle & t & tid & Hin & Hmin & Hrdy & Hwpt & Hws & Hterm).
    rewrite (pendingTasks_ExecuteTask s s' w (t, tid) HI Hw Hin Hwpt), Hterm.
    assert ((t, tid) ∈ pendingTasks s) as Hp
      by (apply elem_of_pendingTasks; eauto).
    assert (pendingTasks s ∖ {[ (t, tid) ]} ⊂ pendingTasks s) as Hsub.
    { split; [apply subseteq_difference_l; done|].
      intros Hsub. specialize (Hsub _ Hp).
      rewrite elem_of_difference, elem_of_singleton in Hsub. tauto. }
    apply subset_size in Hsub. lia.
  - destruct Htm as (x0 & Hrun & Hws & Hterm & Hwpt).
    assert (pendingTasks s' = pendingTasks s) as ->.
    { unfold RunInOrder.pendingTasks. by rewrite Hwpt. }
    destruct HI as (_ & I2 & _).
    destruct (I2 _ _ Hrun) as (_ & HCF & _ & _ & Hnt). rewrite Hterm.
    assert (ControlFlow ∖ (terminatedTasks s ∪ {[ x0 ]})
              ⊂ ControlFlow ∖ terminatedTasks s) as Hsub.
    { split.
      - intros y. rewrite !elem_of_difference, elem_of_union. tauto.
      - intros Hsub. specialize (Hsub x0).
        rewrite !elem_of_difference, elem_of_union, elem_of_singleton in Hsub.
        tauto. }
    apply subset_size in Hsub. lia.
Qed.

Lemma remaining_behaviour (b : nat -> State) :
  Init (b O) -> (forall n, Next (b n) (b (S n)) \/ b (S n) = b n) ->
  forall n m, (n <= m)%nat -> (remaining (b m) <= remaining (b n))%nat.
Proof.
  intros Hinit Hstep n m Hnm. induction Hnm as [|m Hnm IH]; [done|].
  destruct (Hstep m) as [Hn|Hn]; [|by rewrite Hn].
  apply remaining_Next in Hn; [lia|].
  by apply Inv_reachable, behaviour_reachable.
Qed.

Lemma finished_state (s : State) :
  Inv s -> maps_to_workers Workers ControlFlow Mapping ->
  pendingTasks s ∪ activeTasks s = ∅ ->
  pendingTasks s = ∅ /\
  (forall w, w ∈ Workers -> workerStates s w = RunInOrder.Idle) /\
  terminatedTasks s = ControlFlow.
Proof.
  intros HI Hmap [Hp Ha]%empty_union_L. split; [done|]. split.
  - intros w Hw. destruct (workerStates s w) as [y|] eqn:Hy; [|done].
    assert (y ∈ activeTasks s) as Hin by (apply elem_of_activeTasks; eauto).
    rewrite Ha in Hin. by apply not_elem_of_empty in Hin.
  - rewrite <- (TypeOK_Inv s HI Hmap), Hp, Ha.
    by rewrite !(left_id_L ∅ (∪)).
Qed.

(** C4. Termination: in every behaviour of [RunInOrder] (the control flow
    is a finite set, steps are taken under weak fairness of [Next]) some
    state satisfies [Terminated] of [STFSpec]: no task is pending, every
    worker is idle, and all the tasks of the control flow have
    terminated. *)
Theorem RunInOrder_terminates (b : nat -> State) :
  maps_to_workers Workers ControlFlow Mapping ->
  Spec b ->
  exists n,
    STF_Terminated (STF (b n)) /\
    pendingTasks (b n) = ∅ /\
    (forall w, w ∈ Workers -> workerStates (b n) w = RunInOrder.Idle) /\
    terminatedTasks (b n) = ControlFlow.
Proof.
  intros Hmap (Hinit & Hstep & Hfair).
  assert (forall n, Inv (b n)) as HI.
  { intros n. apply Inv_reachable. by apply behaviour_reachable. }
  assert (forall k n, (remaining (b n) <= k)%nat ->
            exists m, (n <= m)%nat /\
              pendingTasks (b m) ∪ activeTasks (b m) = ∅) as Hmain.
  { induction k as [k IH] using lt_wf_ind. intros n Hk.
    destruct (classic (exists m, (n <= m)%nat /\
                pendingTasks (b m) ∪ activeTasks (b m) = ∅)) as [|Hno];
      [done|].
    destruct (Hfair n) as (m & Hm & Hnext & _).
    { intros m Hm. apply progress; [done..|]. intros He. apply Hno. eauto. }
    pose proof (remaining_Next _ _ (HI m) Hnext) as Hlt.
    pose proof (remaining_behaviour b Hinit Hstep n m Hm) as Hle.
    destruct (IH (remaining (b (S m))) ltac:(lia) (S m) ltac:(lia))
      as (m' & Hm' & Hdone).
    exists m'. split; [lia|done]. }
  destruct (Hmain _ O (le_n _)) as (n & _ & Hdone).
  exists n. split; [done|]. by apply finished_state.
Qed.

(** *** The order in which a worker executes its tasks *)

Lemma submission_order_sorted (X : gset (Task * Z)) :
  StronglySorted Z.le (submission_order X).
Proof. apply StronglySorted_merge_sort; apply _. Qed.

Lemma submission_order_elem_of (X : gset (Task * Z)) tid :
  tid ∈ submission_order X <-> exists t, (t, tid) ∈ X.
Proof.
  unfold RunInOrder.submission_order.
  rewrite merge_sort_Permutation, list_elem_of_fmap. split.
  - intros ([t tid'] & -> & Hx%elem_of_elements). eauto.
  - intros (t & Hx). exists (t, tid). by rewrite elem_of_elements.
Qed.

Lemma submission_order_empty :
  submission_order (∅ : gset (Task * Z)) = [].
Proof. unfold RunInOrder.submission_order. by rewrite elements_empty. Qed.

Lemma submission_order_min (X : gset (Task * Z)) x :
  x ∈ X -> (forall y, y ∈ X -> x.2 <= y.2) ->
  submission_order X = x.2 :: submission_order (X ∖ {[ x ]}).
Proof.
  intros Hx Hmin. apply (StronglySorted_unique Z.le).
  - apply submission_order_sorted.
  - constructor; [apply submission_order_sorted|].
    apply Forall_forall. intros tid (t & Ht)%submission_order_elem_of.
    apply elem_of_difference in Ht as [Ht _]. apply (Hmin _ Ht).
  - unfold RunInOrder.submission_order. rewrite !merge_sort_Permutation.
    rewrite (union_difference_singleton_L x X Hx) at 1.
    rewrite elements_union_singleton; [done|].
    rewrite elem_of_difference, elem_of_singleton. tauto.
Qed.

Lemma started_unchanged (s s' : State) w :
  workerStates s' w = workerStates s w -> started w s s' = None.
Proof.
  unfold RunInOrder.started. intros ->. by destruct (workerStates s w).
Qed.

(** What one step does to the queue of worker [w]. *)
Lemma step_started (s s' : State) w :
  Next s s' \/ s' = s ->
  match started w s s' with
  | Some x =>
      x ∈ workerPendingTasks s w /\
      (forall y, y ∈ workerPendingTasks s w -> x.2 <= y.2) /\
      workerPendingTasks s' w = workerPendingTasks s w ∖ {[ x ]}
  | None => workerPendingTasks s' w = workerPendingTasks s w
  end.
Proof.
  intros [(w0 & Hw0 & [Hex|Htm])| ->].
  - destruct Hex as (Hidle & t & tid & Hin & Hmin & Hrdy & Hwpt & Hws & Hterm).
    destruct (decide (w0 = w)) as [<-|Hne].
    + unfold RunInOrder.started.
      rewrite Hidle, Hws, Hwpt, !fn_lookup_insert. split; [done|].
      split; [|done]. intros [ot otid]. apply Hmin.
    + rewrite started_unchanged by (by rewrite Hws, fn_lookup_insert_ne).
      by rewrite Hwpt, fn_lookup_insert_ne.
  - destruct Htm as (x0 & Hrun & Hws & Hterm & Hwpt).
    destruct (decide (w0 = w)) as [<-|Hne].
    + unfold RunInOrder.started. by rewrite Hrun, Hwpt.
    + rewrite started_unchanged by (by rewrite Hws, fn_lookup_insert_ne).
      by rewrite Hwpt.
  - by rewrite started_unchanged.
Qed.

Lemma executed_then_pending (b : nat -> State) w :
  Init (b O) -> (forall n, Next (b n) (b (S n)) \/ b (S n) = b n) ->
  forall n,
    executed b w n ++ submission_order (workerPendingTasks (b n) w) =
    submission_order (filter (fun x : Task * Z => Mapping x.2 = w) ControlFlow).
Proof.
  intros (_ & _ & Hwpt) Hstep n. induction n as [|n IH].
  - simpl. by rewrite Hwpt.
  - simpl. rewrite <- IH, <- (assoc_L (++)). f_equal.
    pose proof (step_started (b n) (b (S n)) w (Hstep n)) as Hs.
    destruct (started w (b n) (b (S n))) as [x|].
    + destruct Hs as (Hx & Hmin & ->). simpl.
      by rewrite <- submission_order_min.
    + by rewrite Hs.
Qed.

Lemma StronglySorted_le_NoDup (l : list Z) :
  StronglySorted Z.le l -> NoDup l -> StronglySorted Z.lt l.
Proof.
  induction 1 as [|a l Hl IH Hall]; intros Hnd; constructor.
  - apply IH. by apply NoDup_cons_1_2 in Hnd.
  - apply NoDup_cons_1_1 in Hnd. rewrite Forall_forall in *.
    intros y Hy. specialize (Hall y Hy).
    assert (a <> y) by (by intros ->). lia.
Qed.

Lemma submission_order_strict (X : gset (Task * Z)) :
  unique_tids ControlFlow -> X ⊆ ControlFlow ->
  StronglySorted Z.lt (submission_order X).
Proof.
  intros Huniq Hsub. apply StronglySorted_le_NoDup.
  - apply submission_order_sorted.
  - unfold RunInOrder.submission_order. rewrite merge_sort_Permutation.
    apply NoDup_fmap_2_strong; [|apply NoDup_elements].
    intros [t1 tid1] [t2 tid2] H1%elem_of_elements H2%elem_of_elements.
    simpl. intros <-. f_equal. eapply Huniq; eauto.
Qed.

(** C5. A worker never overtakes its head.  Along every behaviour that
    starts in [Init] and takes [Next] (or stuttering) steps, for every
    worker: the task it starts in a step has the least identifier of its
    pending tasks; the sequence of identifiers it has executed is
    increasing, strictly so when task identifiers are unique; and that
    sequence, followed by the identifiers still in its queue in sequential
    order, is the submission order of the tasks mapped to it -- so it
    equals that order once the queue is empty. *)
Theorem worker_executes_in_order (b : nat -> State) (w : Worker) (n : nat) :
  Init (b O) ->
  (forall n, Next (b n) (b (S n)) \/ b (S n) = b n) ->
  (forall x, started w (b n) (b (S n)) = Some x ->
     x ∈ workerPendingTasks (b n) w /\
     forall y, y ∈ workerPendingTasks (b n) w -> x.2 <= y.2) /\
  StronglySorted Z.le (executed b w n) /\
  (unique_tids ControlFlow -> StronglySorted Z.lt (executed b w n)) /\
  executed b w n ++ submission_order (workerPendingTasks (b n) w) =
    submission_order
      (filter (fun x : Task * Z => Mapping x.2 = w) ControlFlow) /\
  (workerPendingTasks (b n) w = ∅ ->
   executed b w n =
     submission_order
       (filter (fun x : Task * Z => Mapping x.2 = w) ControlFlow)).
Proof.
  intros Hinit Hstep.
  pose proof (executed_then_pending b w Hinit Hstep n) as Heq.
  split; [|split; [|split; [|split]]].
  - intros x Hx. pose proof (step_started (b n) (b (S n)) w (Hstep n)) as Hs.
    rewrite Hx in Hs. tauto.
  - apply (StronglySorted_app_1_l _ _
             (submission_order (workerPendingTasks (b n) w))).
    rewrite Heq. apply submission_order_sorted.
  - intros Huniq.
    apply (StronglySorted_app_1_l _ _
             (submission_order (workerPendingTasks (b n) w))).
    rewrite Heq. apply submission_order_strict; [done|].
    intros x [_ Hx]%elem_of_filter. done.
  - done.
  - intros Hempty. rewrite <- Heq, Hempty, submission_order_empty.
    by rewrite (right_id_L [] (++)).
Qed.

(** *** Readiness *)

(** C2. In every reachable state the readiness predicate [TaskReady(t, tid)]
    of the resolver (module RunInOrder), and likewise that of [STFSpec]
    under the instantiation, holds exactly when, for every access of [t]:
    a Read of [d] finds no pending or active task with a smaller identifier
    that writes [d], and a Write of [d] finds no pending or active task
    with a smaller identifier that accesses [d] at all. *)
Theorem TaskReady_iff_spec (s : State) (t : Task) (tid : Z) :
  maps_to_workers Workers ControlFlow Mapping ->
  reachable s ->
  (TaskReady s t tid <->
   spec_ready Tasks (pendingTasks s ∪ activeTasks s) t tid) /\
  (STF_TaskReady (STF s) t tid <->
   spec_ready Tasks (pendingTasks s ∪ activeTasks s) t tid).
Proof.
  intros Hmap HI%Inv_reachable.
  assert (STF_TaskReady (STF s) t tid <->
          spec_ready Tasks (pendingTasks s ∪ activeTasks s) t tid) as Hstf.
  { rewrite STF_TaskReady_conflicts. apply conflicts_spec_ready. }
  split; [|done]. rewrite <- Hstf. split.
  - by apply TaskReady_STF.
  - by apply STF_TaskReady_RunInOrder.
Qed.

Lemma terminatedTasks_Next (s s' : State) :
  Next s s' -> terminatedTasks s ⊆ terminatedTasks s'.
Proof.
  intros (w & Hw & [Hex|Htm]).
  - destruct Hex as (_ & t & tid & _ & _ & _ & _ & _ & ->). done.
  - destruct Htm as (x0 & _ & _ & -> & _). apply union_subseteq_l.
Qed.

(** C9. Readiness is stable: [terminatedTasks] only grows along [Next]
    steps (a [TerminateTask] step adds the finished task, an [ExecuteTask]
    step leaves it unchanged), and [ReadReady], [WriteReady] and
    [TaskReady] are monotone in it; so once they hold they hold after any
    number of further steps. *)
Theorem readiness_stable (s s' : State) :
  rtc Next s s' ->
  terminatedTasks s ⊆ terminatedTasks s' /\
  forall (d : Data) (t : Task) (tid : Z),
    (ReadReady s d tid -> ReadReady s' d tid) /\
    (WriteReady s d tid -> WriteReady s' d tid) /\
    (TaskReady s t tid -> TaskReady s' t tid).
Proof.
  intros Hsteps.
  assert (terminatedTasks s ⊆ terminatedTasks s') as Hsub.
  { induction Hsteps as [|s1 s2 s3 Hn _ IH]; [done|].
    etrans; [by apply terminatedTasks_Next|done]. }
  split; [done|]. intros d t tid.
  assert (forall d, ReadReady s d tid -> ReadReady s' d tid) as Hr.
  { intros d' Hrd t1 tid1 Hin.
    destruct (Hrd t1 tid1 Hin) as [?|[?|[?|?]]]; auto 6. }
  assert (forall d, WriteReady s d tid -> WriteReady s' d tid) as Hw.
  { intros d' Hwr t1 tid1 Hin.
    destruct (Hwr t1 tid1 Hin) as [?|[?|?]]; auto 6. }
  split; [apply Hr|]. split; [apply Hw|].
  intros Ht d'. destruct (Ht d') as [?|[[? ?]|[? ?]]]; auto 6.
Qed.

(** *** The phases of a task *)

Lemma activeTasks_ExecuteTask (s s' : State) w x :
  w ∈ Workers -> workerStates s w = None ->
  workerStates s' = <[w := Some x]> (workerStates s) ->
  activeTasks s' = activeTasks s ∪ {[ x ]}.
Proof.
  intros Hw Hidle Hws. apply set_eq. intros y.
  rewrite elem_of_union, elem_of_singleton.
  rewrite (STF_activeTasks_start Workers (STF s) (STF s') w x Hw Hidle Hws).
  tauto.
Qed.

Lemma activeTasks_TerminateTask (s s' : State) w x :
  Inv s -> w ∈ Workers -> workerStates s w = Some x ->
  workerStates s' = <[w := None]> (workerStates s) ->
  activeTasks s' = activeTasks s ∖ {[ x ]}.
Proof.
  intros (_ & I2 & _) Hw Hrun Hws. apply set_eq. intros y.
  rewrite elem_of_difference, elem_of_singleton, !elem_of_activeTasks, Hws.
  split.
  - intros (w' & Hw' & Hy). destruct (decide (w = w')) as [<-|Hne].
    + by rewrite fn_lookup_insert in Hy.
    + rewrite fn_lookup_insert_ne in Hy by done. split; [by exists w'|].
      intros ->. destruct (I2 _ _ Hrun) as (_ & _ & ? & _).
      destruct (I2 _ _ Hy) as (_ & _ & ? & _). congruence.
  - intros [(w' & Hw' & Hy) Hne]. exists w'. split; [done|].
    rewrite fn_lookup_insert_ne; [done|]. intros <-. congruence.
Qed.

(** C6. The task-state partition.  In [Init] every task of the control
    flow is pending.  In every reachable state the pending, active and
    terminated tasks are exactly the tasks of the control flow ([TypeOK])
    and are pairwise disjoint; a pending task is in the queue of one
    worker only and an active task runs on one worker only.  An
    [ExecuteTask] step moves one task from pending to active and a
    [TerminateTask] step moves one task from active to terminated. *)
Theorem task_state_partition :
  maps_to_workers Workers ControlFlow Mapping ->
  (forall s : State, Init s ->
     pendingTasks s = ControlFlow /\ activeTasks s = ∅ /\
     terminatedTasks s = ∅) /\
  (forall s : State, reachable s ->
     TypeOK s /\
     pendingTasks s ## activeTasks s /\
     pendingTasks s ## terminatedTasks s /\
     activeTasks s ## terminatedTasks s /\
     (forall x w1 w2, x ∈ workerPendingTasks s w1 ->
        x ∈ workerPendingTasks s w2 -> w1 = w2) /\
     (forall x w1 w2, workerStates s w1 = Some x ->
        workerStates s w2 = Some x -> w1 = w2)) /\
  (forall (s s' : State) w, reachable s -> w ∈ Workers ->
     ExecuteTask w s s' ->
     exists x, x ∈ pendingTasks s /\
       pendingTasks s' = pendingTasks s ∖ {[ x ]} /\
       activeTasks s' = activeTasks s ∪ {[ x ]} /\
       terminatedTasks s' = terminatedTasks s) /\
  (forall (s s' : State) w, reachable s -> w ∈ Workers ->
     TerminateTask w s s' ->
     exists x, x ∈ activeTasks s /\
       pendingTasks s' = pendingTasks s /\
       activeTasks s' = activeTasks s ∖ {[ x ]} /\
       terminatedTasks s' = terminatedTasks s ∪ {[ x ]}).
Proof.
  intros Hmap. split; [|split; [|split]].
  - intros s Hinit. pose proof (Init_STF s Hmap Hinit) as [Hp _].
    destruct Hinit as (Hterm & Hws & _). split; [done|]. split; [|done].
    apply elem_of_equiv_empty_L.
    intros x (w & _ & Hx)%elem_of_activeTasks. by rewrite Hws in Hx.
  - intros s HI%Inv_reachable. split; [by apply TypeOK_Inv|].
    split; [|split; [|split; [|split]]].
    + intros x Hp Ha. by apply (activeTasks_Inv s x HI) in Ha as (_ & _ & _ & ?).
    + intros x Hp Ht. by apply (pendingTasks_Inv s x HI) in Hp as (_ & ? & _).
    + intros x Ha Ht. by apply (activeTasks_Inv s x HI) in Ha as (_ & ? & _).
    + destruct HI as (I1 & _). intros x w1 w2 H1 H2.
      destruct (I1 _ _ H1), (I1 _ _ H2). congruence.
    + destruct HI as (_ & I2 & _). intros x w1 w2 H1 H2.
      destruct (I2 _ _ H1) as (_ & _ & ? & _).
      destruct (I2 _ _ H2) as (_ & _ & ? & _). congruence.
  - intros s s' w HI%Inv_reachable Hw
      (Hidle & t & tid & Hin & Hmin & Hrdy & Hwpt & Hws & Hterm).
    exists (t, tid). split; [apply elem_of_pendingTasks; eauto|].
    split; [by apply (pendingTasks_ExecuteTask s s' w)|].
    split; [by apply (activeTasks_ExecuteTask s s' w)|done].
  - intros s s' w HI%Inv_reachable Hw (x0 & Hrun & Hws & Hterm & Hwpt).
    exists x0. split; [apply elem_of_activeTasks; eauto|].
    split; [unfold RunInOrder.pendingTasks; by rewrite Hwpt|].
    split; [by apply (activeTasks_TerminateTask s s' w)|done].
Qed.

End RunInOrderFacts.

(** ** Runs given by a schedule of actions *)

Section STFRuns.

Context {Task Worker Data : Type} `{Countable Task} `{Countable Worker}
  `{Finite Data}.
Variable Tasks : Task -> Data -> Dependency.
Variable Workers : gset Worker.
Variable ControlFlow : gset (Task * Z).

Local Abbreviation State := (@STFSpec.State Task Worker _ _).

Lemma STF_perform_Next a (s : State) :
  STFSpec.allowed Tasks Workers a s ->
  STFSpec.Next Tasks Workers s (STFSpec.perform a s).
Proof.
  destruct a as [w [t tid]|w]; simpl.
  - intros (Hw & Hin & Hrdy & Hidle). exists w. split; [done|]. left.
    exists t, tid. split; [done|]. repeat split; done.
  - intros (Hw & Hsome). exists w. split; [done|]. right.
    repeat split; done.
Qed.

Lemma STF_play_reachable sched (s : State) n :
  STFSpec.reachable Tasks Workers ControlFlow s ->
  STFSpec.valid_schedule Tasks Workers sched s ->
  STFSpec.reachable Tasks Workers ControlFlow (STFSpec.play sched s n).
Proof.
  revert s n. induction sched as [|a sched IH]; intros s n Hs Hv.
  - unfold STFSpec.play. by rewrite take_nil.
  - destruct n as [|n]; [done|]. destruct Hv as [Ha Hv].
    apply (IH (STFSpec.perform a s) n); [|done].
    econstructor 2; [done|]. by apply STF_perform_Next.
Qed.

End STFRuns.

Section RunInOrderRuns.

Context {Task Worker Data : Type} `{Countable Task} `{Countable Worker}
  `{Finite Data}.
Variable Tasks : Task -> Data -> Dependency.
Variable Workers : gset Worker.
Variable ControlFlow : gset (Task * Z).
Variable Mapping : Z -> Worker.

Local Abbreviation State := (@RunInOrder.State Task Worker _ _).
Local Abbreviation Next := (RunInOrder.Next Tasks Workers ControlFlow).
Local Abbreviation allowed := (RunInOrder.allowed Tasks Workers ControlFlow).
Local Abbreviation complete_schedule :=
  (RunInOrder.complete_schedule Tasks Workers ControlFlow).
Local Abbreviation play := RunInOrder.play.
Local Abbreviation perform := RunInOrder.perform.
Local Abbreviation finished :=
  (fun s : State =>
     RunInOrder.pendingTasks Workers s ∪ RunInOrder.activeTasks Workers s = ∅).

Lemma perform_Next a (s : State) : allowed a s -> Next s (perform a s).
Proof.
  destruct a as [w [t tid]|w x]; simpl.
  - intros (Hw & Hidle & Hin & Hmin & Hrdy). exists w. split; [done|]. left.
    split; [done|]. exists t, tid. split; [done|]. split; [|done].
    intros ot otid Ho. apply (Hmin _ Ho).
  - intros (Hw & Hrun). exists w. split; [done|]. right. by exists x.
Qed.

Lemma play_S sched (s : State) n :
  play sched s (S n) =
  match sched !! n with
  | Some a => perform a (play sched s n)
  | None => play sched s n
  end.
Proof.
  revert s n. induction sched as [|a sched IH]; intros s n.
  - unfold RunInOrder.play. by rewrite !take_nil, lookup_nil.
  - destruct n as [|n]; [done|]. apply (IH (perform a s) n).
Qed.

Lemma play_schedule sched (s : State) n :
  complete_schedule sched s ->
  match sched !! n with
  | Some a => allowed a (play sched s n)
  | None => finished (play sched s n)
  end.
Proof.
  revert s n. induction sched as [|a sched IH]; intros s n Hc.
  - unfold RunInOrder.play. by rewrite take_nil.
  - destruct Hc as [Ha Hc]. destruct n as [|n]; [done|].
    apply (IH (perform a s) n Hc).
Qed.

Lemma finished_not_Enabled (s : State) :
  finished s -> ~ RunInOrder.Enabled Tasks Workers ControlFlow s.
Proof.
  intros Hfin (s' & (w & Hw & [Hex|Htm]) & _).
  - destruct Hex as (_ & t & tid & Hin & _).
    assert ((t, tid) ∈ RunInOrder.pendingTasks Workers s
              ∪ RunInOrder.activeTasks Workers s) as Hc.
    { apply elem_of_union_l, elem_of_pendingTasks. eauto. }
    rewrite Hfin in Hc. by apply not_elem_of_empty in Hc.
  - destruct Htm as (x & Hrun & _).
    assert (x ∈ RunInOrder.pendingTasks Workers s
              ∪ RunInOrder.activeTasks Workers s) as Hc.
    { apply elem_of_union_r, elem_of_activeTasks. eauto. }
    rewrite Hfin in Hc. by apply not_elem_of_empty in Hc.
Qed.

(** A complete schedule played from an initial state is a behaviour of the
    in-order model: it stutters once the schedule is exhausted, and no
    step is enabled from then on. *)
Lemma play_Spec sched (s : State) :
  RunInOrder.Init ControlFlow Mapping s ->
  complete_schedule sched s ->
  RunInOrder.Spec Tasks Workers ControlFlow Mapping (play sched s).
Proof.
  intros Hinit Hc. split; [done|]. split.
  - intros n. rewrite play_S.
    pose proof (play_schedule sched s n Hc) as Hn.
    destruct (sched !! n); [left|by right]. by apply perform_Next.
  - intros n Hen. exfalso.
    apply (finished_not_Enabled (play sched s (n + length sched))).
    + pose proof (play_schedule sched s (n + length sched) Hc) as Hn.
      rewrite lookup_ge_None_2 in Hn by lia. done.
    + apply Hen. lia.
Qed.

End RunInOrderRuns.

(** ** The 2x2 LU model *)

Section LU2x2Facts.
Import LU2x2.

Lemma LU2x2_maps_to_workers :
  maps_to_workers InputWorkers InputControlFlow InputMapping.
Proof.
  intros t tid _. unfold InputWorkers.
  rewrite elem_of_union, !elem_of_singleton.
  destruct (InputMapping tid); auto.
Qed.

Lemma LU2x2_unique_tids : unique_tids InputControlFlow.
Proof.
  intros t1 t2 tid Hin1 Hin2. unfold InputControlFlow in *.
  rewrite !elem_of_union, !elem_of_singleton in Hin1, Hin2.
  destruct Hin1 as [[[[E1|E1]|E1]|E1]|E1], Hin2 as [[[[E2|E2]|E2]|E2]|E2];
    congruence.
Qed.

Lemma LU2x2_Init : RunInOrder.Init InputControlFlow InputMapping init.
Proof. done. Qed.

Lemma LU2x2_Spec :
  RunInOrder.Spec InputTasks InputWorkers InputControlFlow InputMapping run.
Proof.
  apply play_Spec; [apply LU2x2_Init|].
  by_computation.
Qed.

Lemma LU2x2_steps n :
  RunInOrder.Next InputTasks InputWorkers InputControlFlow (run n) (run (S n))
  \/ run (S n) = run n.
Proof. destruct LU2x2_Spec as (_ & Hstep & _). apply Hstep. Qed.

Lemma LU2x2_reachable n :
  RunInOrder.reachable InputTasks InputWorkers InputControlFlow InputMapping
    (run n).
Proof. apply behaviour_reachable; [apply LU2x2_Init|apply LU2x2_steps]. Qed.

Lemma LU2x2_STF_reachable :
  STFSpec.reachable InputTasks InputWorkers InputControlFlow STF_panels.
Proof.
  apply STF_play_reachable.
  - by constructor.
  - by_computation.
Qed.

(** Some evaluations of the definitions on this model. *)

Example panel21_waits_for_fact1 :
  ~ RunInOrder.TaskReady InputTasks InputControlFlow (run 0) panel21 2 /\
  ~ RunInOrder.TaskReady InputTasks InputControlFlow (run 1) panel21 2 /\
  RunInOrder.TaskReady InputTasks InputControlFlow (run 2) panel21 2.
Proof.
  split; [|split].
  - by_computation.
  - by_computation.
  - by_computation.
Qed.

Example executed_by_w1 :
  RunInOrder.executed run w1 10 = [2; 4; 6; 10] /\
  RunInOrder.executed run w2 10 = [1] /\
  RunInOrder.submission_order
    (filter (fun x : TaskName * Z => InputMapping x.2 = w1) InputControlFlow)
  = [2; 4; 6; 10].
Proof. repeat split; vm_compute; reflexivity. Qed.

Example panels_run_concurrently :
  elements (STFSpec.activeTasks InputWorkers STF_panels)
    ≡ₚ [(panel21, 2); (panel12, 4)] /\
  elements (STFSpec.pendingTasks STF_panels)
    ≡ₚ [(gemm22, 6); (fact2, 10)].
Proof.
  split.
  - replace (elements (STFSpec.activeTasks InputWorkers STF_panels))
      with [(panel21, 2); (panel12, 4)] by (vm_compute; reflexivity). done.
  - replace (elements (STFSpec.pendingTasks STF_panels))
      with [(gemm22, 6); (fact2, 10)] by (vm_compute; reflexivity). done.
Qed.

(** The theorems at this model. *)

Lemma RunInOrder_implements_STF_witness :
  maps_to_workers InputWorkers InputControlFlow InputMapping /\
  RunInOrder.Spec InputTasks InputWorkers InputControlFlow InputMapping run /\
  STFSpec.Spec InputTasks InputWorkers InputControlFlow
    (fun n => RunInOrder.STF InputWorkers (run n)).
Proof.
  split; [exact LU2x2_maps_to_workers|]. split; [exact LU2x2_Spec|].
  exact (RunInOrder_implements_STF InputTasks InputWorkers InputControlFlow
           InputMapping run LU2x2_maps_to_workers LU2x2_Spec).
Defined.

Lemma TaskReady_iff_spec_witness :
  maps_to_workers InputWorkers InputControlFlow InputMapping /\
  RunInOrder.reachable InputTasks InputWorkers InputControlFlow InputMapping
    (run 2) /\
  (RunInOrder.TaskReady InputTasks InputControlFlow (run 2) panel21 2 <->
   spec_ready InputTasks
     (RunInOrder.pendingTasks InputWorkers (run 2)
        ∪ RunInOrder.activeTasks InputWorkers (run 2)) panel21 2) /\
  (STFSpec.TaskReady InputTasks InputWorkers
     (RunInOrder.STF InputWorkers (run 2)) panel21 2 <->
   spec_ready InputTasks
     (RunInOrder.pendingTasks InputWorkers (run 2)
        ∪ RunInOrder.activeTasks InputWorkers (run 2)) panel21 2).
Proof.
  split; [exact LU2x2_maps_to_workers|]. split; [exact (LU2x2_reachable 2)|].
  exact (TaskReady_iff_spec InputTasks InputWorkers InputControlFlow
           InputMapping (run 2) panel21 2 LU2x2_maps_to_workers
           (LU2x2_reachable 2)).
Defined.

Lemma DataRaceFreedom_invariant_witness :
  STFSpec.reachable InputTasks InputWorkers InputControlFlow STF_panels /\
  unique_tids InputControlFlow /\
  RunInOrder.reachable InputTasks InputWorkers InputControlFlow InputMapping
    (run 3) /\
  STFSpec.DataRaceFreedom InputTasks InputWorkers STF_panels /\
  STFSpec.DataRaceFreedom InputTasks InputWorkers
    (RunInOrder.STF InputWorkers (run 3)) /\
  (forall d : DataName,
     ~ (InputTasks panel21 d = DepW /\ InputTasks panel12 d <> DepNone) /\
     ~ (InputTasks panel12 d = DepW /\ InputTasks panel21 d <> DepNone)).
Proof.
  split; [exact LU2x2_STF_reachable|]. split; [exact LU2x2_unique_tids|].
  split; [exact (LU2x2_reachable 3)|].
  destruct (DataRaceFreedom_invariant InputTasks InputWorkers
              InputControlFlow InputMapping) as [Hstf Hrio].
  destruct (Hstf STF_panels LU2x2_STF_reachable) as [Hdrf Hdistinct].
  destruct (Hrio (run 3) (LU2x2_reachable 3)) as [Hdrf' _].
  split; [exact Hdrf|]. split; [exact Hdrf'|].
  apply (Hdistinct LU2x2_unique_tids (panel21, 2) (panel12, 4)).
  - by_computation.
  - by_computation.
  - discriminate.
Defined.

Lemma RunInOrder_terminates_witness :
  maps_to_workers InputWorkers InputControlFlow InputMapping /\
  RunInOrder.Spec InputTasks InputWorkers InputControlFlow InputMapping run /\
  exists n,
    STFSpec.Terminated InputWorkers (RunInOrder.STF InputWorkers (run n)) /\
    RunInOrder.pendingTasks InputWorkers (run n) = ∅ /\
    (forall w, w ∈ InputWorkers ->
       RunInOrder.workerStates (run n) w = RunInOrder.Idle) /\
    RunInOrder.terminatedTasks (run n) = InputControlFlow.
Proof.
  split; [exact LU2x2_maps_to_workers|]. split; [exact LU2x2_Spec|].
  exact (RunInOrder_terminates InputTasks InputWorkers InputControlFlow
           InputMapping run LU2x2_maps_to_workers LU2x2_Spec).
Defined.

Lemma worker_executes_in_order_witness :
  RunInOrder.Init InputControlFlow InputMapping (run 0) /\
  (forall n,
     RunInOrder.Next InputTasks InputWorkers InputControlFlow
       (run n) (run (S n)) \/ run (S n) = run n) /\
  unique_tids InputControlFlow /\
  (forall x, RunInOrder.started w1 (run 4) (run 5) = Some x ->
     x ∈ RunInOrder.workerPendingTasks (run 4) w1 /\
     forall y, y ∈ RunInOrder.workerPendingTasks (run 4) w1 -> x.2 <= y.2) /\
  StronglySorted Z.lt (RunInOrder.executed run w1 4) /\
  RunInOrder.executed run w1 4 ++
    RunInOrder.submission_order (RunInOrder.workerPendingTasks (run 4) w1) =
    RunInOrder.submission_order
      (filter (fun x : TaskName * Z => InputMapping x.2 = w1)
         InputControlFlow).
Proof.
  split; [exact LU2x2_Init|]. split; [exact LU2x2_steps|].
  split; [exact LU2x2_unique_tids|].
  destruct (worker_executes_in_order InputTasks InputWorkers InputControlFlow
              InputMapping run w1 4 LU2x2_Init LU2x2_steps)
    as (Hhead & _ & Hstrict & Horder & _).
  split; [exact Hhead|]. split; [exact (Hstrict LU2x2_unique_tids)|].
  exact Horder.
Defined.

Lemma task_state_partition_witness :
  maps_to_workers InputWorkers InputControlFlow InputMapping /\
  RunInOrder.reachable InputTasks InputWorkers InputControlFlow InputMapping
    (run 3) /\
  RunInOrder.TypeOK InputWorkers InputControlFlow (run 3) /\
  RunInOrder.pendingTasks InputWorkers (run 3)
    ## RunInOrder.activeTasks InputWorkers (run 3) /\
  RunInOrder.pendingTasks InputWorkers (run 3)
    ## RunInOrder.terminatedTasks (run 3) /\
  RunInOrder.activeTasks InputWorkers (run 3)
    ## RunInOrder.terminatedTasks (run 3).
Proof.
  split; [exact LU2x2_maps_to_workers|]. split; [exact (LU2x2_reachable 3)|].
  destruct (task_state_partition InputTasks InputWorkers InputControlFlow
              InputMapping LU2x2_maps_to_workers) as (_ & Hreach & _).
  destruct (Hreach (run 3) (LU2x2_reachable 3))
    as (Htype & Hpa & Hpt & Hat & _).
  repeat split; assumption.
Defined.

Lemma LU2x2_terminate_step :
  rtc (RunInOrder.Next InputTasks InputWorkers InputControlFlow)
    (run 1) (run 2).
Proof.
  apply rtc_once. destruct (LU2x2_steps 1) as [Hn|Hn]; [done|].
  exfalso. apply (f_equal RunInOrder.terminatedTasks) in Hn.
  assert ((fact1, 1) ∈ RunInOrder.terminatedTasks (run 1)) as Hin.
  { rewrite <- Hn. by_computation. }
  revert Hin. by_computation.
Qed.

Lemma readiness_stable_witness :
  rtc (RunInOrder.Next InputTasks InputWorkers InputControlFlow)
    (run 1) (run 2) /\
  RunInOrder.terminatedTasks (run 1) ⊆ RunInOrder.terminatedTasks (run 2) /\
  forall (d : DataName) (t : TaskName) (tid : Z),
    (RunInOrder.ReadReady InputTasks InputControlFlow (run 1) d tid ->
     RunInOrder.ReadReady InputTasks InputControlFlow (run 2) d tid) /\
    (RunInOrder.WriteReady InputTasks InputControlFlow (run 1) d tid ->
     RunInOrder.WriteReady InputTasks InputControlFlow (run 2) d tid) /\
    (RunInOrder.TaskReady InputTasks InputControlFlow (run 1) t tid ->
     RunInOrder.TaskReady InputTasks InputControlFlow (run 2) t tid).
Proof.
  split; [exact LU2x2_terminate_step|].
  exact (readiness_stable InputTasks InputWorkers InputControlFlow
           (run 1) (run 2) LU2x2_terminate_step).
Defined.

End LU2x2Facts.

(* ===================================================================== *)
(** * Part III: further properties of the modelled code                  *)
(* ===================================================================== *)

(** ** The [counter_deps] driver: generator, entry point, submitted tasks *)

Section CounterDepsMore.
Import CounterDeps.

(** *** The generator *)

Lemma lxor_64bit a b :
  0 <= a < 2 ^ 64 -> 0 <= b < 2 ^ 64 -> 0 <= Z.lxor a b < 2 ^ 64.
Proof.
  intros Ha Hb. split; [apply Z.lxor_nonneg; lia|].
  destruct (Z.eq_dec (Z.lxor a b) 0) as [->|Hne]; [lia|].
  assert (0 < Z.lxor a b) by (pose proof (proj2 (Z.lxor_nonneg a b)); lia).
  apply Z.log2_lt_pow2; [lia|].
  pose proof (Z.log2_lxor a b ltac:(lia) ltac:(lia)) as Hl.
  assert (Z.log2 a < 64).
  { destruct (Z.eq_dec a 0) as [->|]; [simpl; lia|].
    apply Z.log2_lt_pow2; lia. }
  assert (Z.log2 b < 64).
  { destruct (Z.eq_dec b 0) as [->|]; [simpl; lia|].
    apply Z.log2_lt_pow2; lia. }
  lia.
Qed.

Lemma wrap64_64bit z : 0 <= wrap64 z < 2 ^ 64.
Proof. apply Z.mod_pos_bound. lia. Qed.

Lemma shiftr_64bit a x :
  0 <= a -> 0 <= x < 2 ^ 64 -> 0 <= Z.shiftr x a < 2 ^ 64.
Proof.
  intros Ha Hx. rewrite Z.shiftr_div_pow2 by lia.
  assert (0 < 2 ^ a) by (apply Z.pow_pos_nonneg; lia).
  split; [apply Z.div_pos; lia|].
  apply Z.le_lt_trans with x; [|lia]. apply Z.div_le_upper_bound; nia.
Qed.

Lemma xorshift_left_64bit a x :
  0 <= x < 2 ^ 64 -> 0 <= xorshift_left a x < 2 ^ 64.
Proof. intros Hx. apply lxor_64bit; [done|apply wrap64_64bit]. Qed.

Lemma xorshift_right_64bit a x :
  0 <= a -> 0 <= x < 2 ^ 64 -> 0 <= xorshift_right a x < 2 ^ 64.
Proof. intros Ha Hx. apply lxor_64bit; [done|by apply shiftr_64bit]. Qed.

(** Both rounds are linear for [xor]. *)

Lemma wrap64_lxor a b : wrap64 (Z.lxor a b) = Z.lxor (wrap64 a) (wrap64 b).
Proof.
  unfold wrap64. rewrite <- !Z.land_ones by lia.
  apply Z.bits_inj'. intros n Hn.
  rewrite !Z.lxor_spec, !Z.land_spec, Z.lxor_spec.
  destruct (Z.testbit a n), (Z.testbit b n), (Z.testbit (Z.ones 64) n);
    reflexivity.
Qed.

Lemma lxor_interchange a b c d :
  Z.lxor (Z.lxor a b) (Z.lxor c d) = Z.lxor (Z.lxor a c) (Z.lxor b d).
Proof.
  apply Z.bits_inj'. intros n Hn. rewrite !Z.lxor_spec.
  destruct (Z.testbit a n), (Z.testbit b n), (Z.testbit c n),
    (Z.testbit d n); reflexivity.
Qed.

Lemma xorshift_left_lxor a x y :
  xorshift_left a (Z.lxor x y) =
  Z.lxor (xorshift_left a x) (xorshift_left a y).
Proof.
  unfold xorshift_left. rewrite Z.shiftl_lxor, wrap64_lxor.
  apply lxor_interchange.
Qed.

Lemma xorshift_right_lxor a x y :
  xorshift_right a (Z.lxor x y) =
  Z.lxor (xorshift_right a x) (xorshift_right a y).
Proof.
  unfold xorshift_right. rewrite Z.shiftr_lxor. apply lxor_interchange.
Qed.

(** Only zero is sent to zero. *)

Lemma xorshift_left_zero a x :
  0 < a < 64 -> Z.gcd (2 ^ 64) (2 ^ a - 1) = 1 ->
  0 <= x < 2 ^ 64 -> xorshift_left a x = 0 -> x = 0.
Proof.
  intros Ha Hg Hx H0. unfold xorshift_left in H0. apply Z.lxor_eq in H0.
  unfold wrap64 in H0. rewrite Z.shiftl_mul_pow2 in H0 by lia.
  assert ((2 ^ 64 | (2 ^ a - 1) * x)) as Hd.
  { exists ((x * 2 ^ a) / 2 ^ 64).
    pose proof (Z.div_mod (x * 2 ^ a) (2 ^ 64) ltac:(lia)) as Hdm.
    rewrite <- H0 in Hdm. rewrite Z.mul_sub_distr_r.
    generalize dependent (x * 2 ^ a / 2 ^ 64). intros. lia. }
  apply Z.gauss in Hd; [|assumption].
  destruct Hd as [k Hk]. assert (k = 0) by nia. lia.
Qed.

Lemma xorshift_right_zero a x :
  0 < a -> 0 <= x -> xorshift_right a x = 0 -> x = 0.
Proof.
  intros Ha Hx H0. unfold xorshift_right in H0. apply Z.lxor_eq in H0.
  rewrite Z.shiftr_div_pow2 in H0 by lia.
  assert (2 <= 2 ^ a).
  { change 2 with (2 ^ 1) at 1. apply Z.pow_le_mono_r; lia. }
  destruct (Z.eq_dec x 0); [assumption|]. exfalso.
  assert (x / 2 ^ a < x) by (apply Z.div_lt; lia). lia.
Qed.

(** The value produced by [rng_next], as three rounds. *)
Lemma rng_next_rounds rng :
  (rng_next rng).2 =
  xorshift_left 17 (xorshift_right 7 (xorshift_left 13 (state rng))) /\
  state (rng_next rng).1 = (rng_next rng).2.
Proof. split; reflexivity. Qed.

Lemma rounds_zero x :
  0 <= x < 2 ^ 64 ->
  xorshift_left 17 (xorshift_right 7 (xorshift_left 13 x)) = 0 -> x = 0.
Proof.
  intros Hx H0.
  pose proof (xorshift_left_64bit 13 x Hx) as H1.
  pose proof (xorshift_right_64bit 7 _ ltac:(lia) H1) as H2.
  apply xorshift_left_zero in H0; [|lia|reflexivity|done].
  apply xorshift_right_zero in H0; [|lia|lia].
  apply xorshift_left_zero in H0; [done|lia|reflexivity|done].
Qed.

Lemma rounds_nonzero_64bit x :
  0 < x < 2 ^ 64 ->
  0 < xorshift_left 17 (xorshift_right 7 (xorshift_left 13 x)) < 2 ^ 64.
Proof.
  intros Hs.
  pose proof (xorshift_left_64bit 13 x ltac:(lia)) as H1.
  pose proof (xorshift_right_64bit 7 _ ltac:(lia) H1) as H2.
  pose proof (xorshift_left_64bit 17 _ H2) as H3.
  assert (xorshift_left 17 (xorshift_right 7 (xorshift_left 13 x)) <> 0).
  { intros H0. apply rounds_zero in H0; lia. }
  lia.
Qed.

(** X1. [rng_next] keeps the state a non-zero 64-bit value: from a state
    in [1, 2^64) it produces a value in [1, 2^64), which is also the new
    state.  (Zero is a fixed point, so a generator that reached it would
    produce zeros for ever.) *)
Theorem rng_next_nonzero_64bit (rng : random_number_generator_t) :
  0 < state rng < 2 ^ 64 ->
  0 < (rng_next rng).2 < 2 ^ 64 /\
  state (rng_next rng).1 = (rng_next rng).2.
Proof.
  intros Hs. destruct (rng_next_rounds rng) as [Hv Hst]. split; [|done].
  rewrite Hv. by apply rounds_nonzero_64bit.
Qed.

(** X2. [rng_next] is injective on 64-bit states: two generators that
    produce the same value were in the same state. *)
Theorem rng_next_injective (r1 r2 : random_number_generator_t) :
  0 <= state r1 < 2 ^ 64 -> 0 <= state r2 < 2 ^ 64 ->
  (rng_next r1).2 = (rng_next r2).2 -> state r1 = state r2.
Proof.
  intros H1 H2 Heq.
  destruct (rng_next_rounds r1) as [Hv1 _], (rng_next_rounds r2) as [Hv2 _].
  rewrite Hv1, Hv2 in Heq.
  apply Z.lxor_eq. apply rounds_zero; [by apply lxor_64bit|].
  rewrite xorshift_left_lxor, xorshift_right_lxor, xorshift_left_lxor, Heq.
  apply Z.lxor_nilpotent.
Qed.

Lemma generated_from n rng x :
  0 < state rng < 2 ^ 64 -> x ∈ generated n rng -> 0 < x < 2 ^ 64.
Proof.
  revert rng. induction n as [|n IH]; intros rng Hs; simpl.
  - intros Hx. by apply not_elem_of_nil in Hx.
  - destruct (rng_next_rounds rng) as [Hv Hst].
    pose proof (rounds_nonzero_64bit _ Hs) as Hr. rewrite <- Hv in Hr.
    intros [->|Hx]%elem_of_cons; [done|].
    apply (IH (rng_next rng).1); [|done]. by rewrite Hst.
Qed.

(** X3. Every value generated from the seed [0x92d68ca2] is a non-zero
    64-bit value. *)
Theorem generated_nonzero_64bit (n : nat) (x : Z) :
  x ∈ generated n rng_new -> 0 < x < 2 ^ 64.
Proof. apply generated_from. vm_compute. by split. Qed.

(** *** The submitted tasks *)

Lemma select_branch_cases i1 i2 i3 :
  match select_branch i1 i2 i3 with
  | BranchAllEqual => i1 = i2 /\ i1 = i3
  | BranchFirstTwoEqual => i1 = i2 /\ i1 <> i3
  | BranchThirdCollides => i1 <> i2 /\ (i1 = i3 \/ i2 = i3)
  | BranchAllDistinct => i1 <> i2 /\ i1 <> i3 /\ i2 <> i3
  end.
Proof.
  unfold select_branch.
  destruct (Z.eqb_spec i1 i2), (Z.eqb_spec i1 i3), (Z.eqb_spec i2 i3);
    simpl; auto.
Qed.

Lemma registered_handle i :
  0 <= i < N_DATA -> {| handle_slot := Z.to_nat i |} ∈ init_H.
Proof.
  intros Hi. apply list_elem_of_lookup. exists (Z.to_nat i).
  pose proof (read_H_in_bounds i Hi) as Hr. unfold read_H in Hr.
  by rewrite bool_decide_eq_true_2 in Hr by lia.
Qed.

Lemma handle_slot_inj i j :
  0 <= i -> 0 <= j -> i <> j ->
  {| handle_slot := Z.to_nat i |} <> {| handle_slot := Z.to_nat j |}.
Proof. intros Hi Hj Hne [= Heq]. apply Hne. by apply Z2Nat.inj. Qed.

Lemma prepare_task_read_only x :
  exists t, prepare_task init_H x = Some t /\ read_only_task init_H t.
Proof.
  pose proof (idx_1_bound x) as B1. pose proof (idx_2_bound x) as B2.
  pose proof (idx_3_bound x) as B3.
  pose proof (select_branch_cases (idx_1 x) (idx_2 x) (idx_3 x)) as Hc.
  unfold prepare_task, branch_task.
  rewrite !read_H_in_bounds by done.
  destruct (select_branch _ _ _); simpl; eexists; (split; [reflexivity|]);
    unfold read_only_task, task_accesses; simpl.
  - split; [|split; [|split]].
    + apply NoDup_singleton.
    + intros h ->%list_elem_of_singleton. by apply registered_handle.
    + lia.
    + intros a ->%list_elem_of_singleton. split; [|done].
      by apply list_elem_of_singleton.
  - destruct Hc as [_ Hne]. split; [|split; [|split]].
    + apply NoDup_cons. split; [|apply NoDup_singleton].
      intros ?%list_elem_of_singleton.
      by apply (handle_slot_inj (idx_1 x) (idx_3 x)); try lia.
    + intros h [-> | ->%list_elem_of_singleton]%elem_of_cons;
        by apply registered_handle.
    + lia.
    + intros a [-> | ->%list_elem_of_singleton]%elem_of_cons; split; try done;
        simpl; rewrite !elem_of_cons; auto.
  - destruct Hc as [Hne _]. split; [|split; [|split]].
    + apply NoDup_cons. split; [|apply NoDup_singleton].
      intros ?%list_elem_of_singleton.
      by apply (handle_slot_inj (idx_1 x) (idx_2 x)); try lia.
    + intros h [-> | ->%list_elem_of_singleton]%elem_of_cons;
        by apply registered_handle.
    + lia.
    + intros a [-> | ->%list_elem_of_singleton]%elem_of_cons; split; try done;
        simpl; rewrite !elem_of_cons; auto.
  - destruct Hc as (H12 & H13 & H23). split; [|split; [|split]].
    + repeat (apply NoDup_cons; split);
        [| |apply not_elem_of_nil|apply NoDup_nil_2].
      * rewrite !elem_of_cons. intros [E|[E|E]].
        -- by apply (handle_slot_inj (idx_1 x) (idx_2 x)) in E; try lia.
        -- by apply (handle_slot_inj (idx_1 x) (idx_3 x)) in E; try lia.
        -- by apply not_elem_of_nil in E.
      * intros ?%list_elem_of_singleton.
        by apply (handle_slot_inj (idx_2 x) (idx_3 x)); try lia.
    + intros h. rewrite !elem_of_cons.
      intros [-> |[-> |[-> |E]]]; try (by apply registered_handle).
      by apply not_elem_of_nil in E.
    + lia.
    + intros a [-> | ->%list_elem_of_singleton]%elem_of_cons; split; try done;
        simpl; rewrite !elem_of_cons; auto.
Qed.

Lemma run_loop_read_only n rng :
  exists ts, run_loop init_H n rng = Some ts /\ length ts = n /\
    Forall (read_only_task init_H) ts.
Proof.
  revert rng. induction n as [|n IH]; intros rng.
  - exists []. by repeat split.
  - rewrite run_loop_unfold.
    destruct (prepare_task_read_only (rng_next rng).2) as (t & -> & Ht).
    destruct (IH (rng_next rng).1) as (ts & -> & Hlen & Hts).
    exists (t :: ts). simpl. split; [done|]. split; [by rewrite Hlen|].
    by constructor.
Qed.

(** X4. The loop of [run], iterated [N_TASKS] times, always succeeds and
    submits exactly [N_TASKS] tasks, the ones built for the first
    [N_TASKS] generated values.  Each names
    registered handles, none twice, and declares one or two accesses, all
    of them [STARPU_R]: no task of the driver ever declares a write, so
    the submitted tasks do not depend on one another. *)
Theorem run_submits_read_only_tasks (n_tasks : nat) :
  exists ts,
    run n_tasks = Some ts /\
    length ts = n_tasks /\
    mapM (prepare_task init_H) (generated n_tasks rng_new) = Some ts /\
    Forall (read_only_task init_H) ts.
Proof.
  destruct (run_loop_read_only n_tasks rng_new) as (ts & Hrun & Hlen & Hts).
  exists ts. split; [done|]. split; [done|]. split; [|done].
  by rewrite <- run_loop_generated.
Qed.

(** *** The entry point *)

Lemma init_loop_cases values :
  init_loop values 0 default_globals =
  match values with
  | [] => Returns default_globals
  | [a] => Returns {| N_TASKS := wrap64 a; N := 1000 |}
  | [a; b] => Returns {| N_TASKS := wrap64 a; N := wrap64 b |}
  | _ => Exits 1
  end.
Proof. destruct values as [|a [|b [|c rest]]]; reflexivity. Qed.

Lemma run_counted_returns n :
  0 <= n <= INT_MAX ->
  exists ts, run_counted init_H n = Returns ts /\ length ts = Z.to_nat n.
Proof.
  intros Hn. unfold run_counted.
  destruct (Z.leb_spec n INT_MAX) as [_|]; [|lia].
  destruct (run_loop_read_only (Z.to_nat n) rng_new) as (ts & -> & Hlen & _).
  by exists ts.
Qed.

Lemma run_counted_overflow v :
  INT_MIN <= v < 0 -> run_counted init_H (wrap64 v) = Undefined.
Proof.
  intros Hv. unfold run_counted, wrap64.
  assert (v mod 2 ^ 64 = v + 2 ^ 64) as ->.
  { symmetry. apply (Z.mod_unique _ _ (-1)); unfold INT_MIN in *; lia. }
  destruct (Z.leb_spec (v + 2 ^ 64) INT_MAX) as [Hle|]; [|done].
  unfold INT_MIN, INT_MAX in *. lia.
Qed.

Lemma wrap64_int v : 0 <= v <= INT_MAX -> wrap64 v = v.
Proof. intros Hv. apply Z.mod_small. unfold INT_MAX in *. lia. Qed.

(** X5. [main], for arguments that [atoi] reads as the [int] values
    [values].  A third argument makes [init] call [exit(1)] before any
    task is built.  Otherwise the first argument, 1000 by default, is the
    number of tasks: [run] submits exactly that many when it is not
    negative; a negative one, stored in the unsigned [N_TASKS], is at
    least [2^63], and the [int] counter of the loop of [run] overflows. *)
Theorem main_outcome (values : list Z) :
  Forall (fun v => INT_MIN <= v <= INT_MAX) values ->
  match values with
  | [] => exists ts, main values = Returns ts /\ length ts = 1000%nat
  | [a] | [a; _] =>
      if 0 <=? a
      then exists ts, main values = Returns ts /\ length ts = Z.to_nat a
      else main values = Undefined
  | _ => main values = Exits 1
  end.
Proof.
  intros Hint. unfold main, init. rewrite init_loop_cases.
  destruct values as [|a [|b [|c rest]]]; simpl.
  - apply (run_counted_returns 1000). by vm_compute.
  - apply Forall_cons_1 in Hint as [Ha _].
    destruct (Z.leb_spec 0 a).
    + rewrite wrap64_int by lia. apply run_counted_returns. lia.
    + apply run_counted_overflow. lia.
  - apply Forall_cons_1 in Hint as [Ha _].
    destruct (Z.leb_spec 0 a).
    + rewrite wrap64_int by lia. apply run_counted_returns. lia.
    + apply run_counted_overflow. lia.
  - done.
Qed.

End CounterDepsMore.

(** ** [STFSpec]: invariants, enabledness, termination *)

Section STFMore.

Context {Task Worker Data : Type} `{Countable Task} `{Countable Worker}.
Variable Tasks : Task -> Data -> Dependency.
Variable Workers : gset Worker.
Variable ControlFlow : gset (Task * Z).

Local Abbreviation State := (@STFSpec.State Task Worker _ _).
Local Abbreviation activeTasks := (STFSpec.activeTasks Workers).
Local Abbreviation pendingTasks := STFSpec.pendingTasks.
Local Abbreviation workerStates := STFSpec.workerStates.
Local Abbreviation Next := (STFSpec.Next Tasks Workers).
Local Abbreviation Enabled := (STFSpec.Enabled Tasks Workers).
Local Abbreviation Init := (STFSpec.Init ControlFlow).
Local Abbreviation Spec := (STFSpec.Spec Tasks Workers ControlFlow).
Local Abbreviation Terminated := (STFSpec.Terminated Workers).
Local Abbreviation reachable := (STFSpec.reachable Tasks Workers ControlFlow).

(** X6. [TypeOK] of [STFSpec] is an invariant, and a started task is held
    once: in every reachable state the pending and the active tasks are
    tasks of the control flow, no active task is still pending, and no
    task is held by two workers. *)
Theorem STF_task_held_once (s : State) :
  reachable s ->
  STFSpec.TypeOK Workers ControlFlow s /\
  pendingTasks s ## activeTasks s /\
  (forall w1 w2 x, workerStates s w1 = Some x -> workerStates s w2 = Some x ->
     w1 = w2).
Proof.
  intros Hs. split; [by apply (STF_TypeOK_reachable Tasks)|].
  destruct (STF_Started_reachable Tasks Workers ControlFlow s Hs) as [H1 H2].
  split; [|done].
  intros x Hp (w & _ & Hx)%STF_elem_of_activeTasks. by apply (H1 w x).
Qed.

Lemma STF_Enabled_unfinished_state (s : State) :
  Enabled s -> Workers <> ∅ /\ pendingTasks s ∪ activeTasks s <> ∅.
Proof.
  intros (s' & (w & Hw & Hstep) & _). split.
  - intros Hempty. rewrite Hempty in Hw. by apply not_elem_of_empty in Hw.
  - intros Hempty.
    assert (exists x, x ∈ pendingTasks s ∪ activeTasks s) as [x Hx].
    { destruct Hstep as [(t & tid & Hin & _)|([x Hx] & _)].
      - exists (t, tid). by apply elem_of_union_l.
      - exists x. apply elem_of_union_r, STF_elem_of_activeTasks. eauto. }
    rewrite Hempty in Hx. by apply not_elem_of_empty in Hx.
Qed.

(** X7. In [STFSpec] a step is enabled exactly when there is a worker and
    some task is pending or active: the abstract model never deadlocks on
    dependencies, in any state. *)
Theorem STF_Enabled_iff (s : State) :
  Enabled s <-> Workers <> ∅ /\ pendingTasks s ∪ activeTasks s <> ∅.
Proof.
  split; [apply STF_Enabled_unfinished_state|].
  intros [Hw Hne]. by apply STF_progress.
Qed.

Lemma STF_no_workers_no_step (b : nat -> State) :
  Workers = ∅ -> (forall n, Next (b n) (b (S n)) \/ b (S n) = b n) ->
  forall n, b n = b O.
Proof.
  intros Hempty Hstep n. induction n as [|n IH]; [done|].
  destruct (Hstep n) as [(w & Hw & _)|Hn]; [|by rewrite Hn].
  rewrite Hempty in Hw. by apply not_elem_of_empty in Hw.
Qed.

(** X8. Termination of [STFSpec], the second half of its theorem
    [Spec => <>Terminated]: a behaviour reaches a state with no pending
    and no active task exactly when there is a worker or the control flow
    is empty.  Without workers no step is ever taken. *)
Theorem STF_terminates_iff (b : nat -> State) :
  Spec b ->
  (exists n, Terminated (b n)) <-> Workers <> ∅ \/ ControlFlow = ∅.
Proof.
  intros Hspec. split.
  - intros [n Hn]. destruct (decide (Workers = ∅)) as [Hempty|]; [|by left].
    right. destruct Hspec as ([Hp Hws] & Hstep & _).
    rewrite (STF_no_workers_no_step b Hempty Hstep n) in Hn.
    apply empty_union_L in Hn as [Hn _]. by rewrite <- Hp.
  - intros [Hw|Hempty].
    + by apply (STF_terminates Tasks Workers ControlFlow).
    + exists O. destruct Hspec as ([Hp Hws] & _). unfold STFSpec.Terminated.
      rewrite Hp, Hempty, (left_id_L ∅ (∪)).
      apply elem_of_equiv_empty_L.
      intros x (w & _ & Hx)%STF_elem_of_activeTasks. by rewrite Hws in Hx.
Qed.

End STFMore.

(** ** [RunInOrder]: placement, ordering of conflicting tasks, progress *)

Section RunInOrderMore.

Context {Task Worker Data : Type} `{Countable Task} `{Countable Worker}.
Variable Tasks : Task -> Data -> Dependency.
Variable Workers : gset Worker.
Variable ControlFlow : gset (Task * Z).
Variable Mapping : Z -> Worker.

Local Abbreviation State := (@RunInOrder.State Task Worker _ _).
Local Abbreviation pendingTasks := (RunInOrder.pendingTasks Workers).
Local Abbreviation activeTasks := (RunInOrder.activeTasks Workers).
Local Abbreviation workerStates := RunInOrder.workerStates.
Local Abbreviation workerPendingTasks := RunInOrder.workerPendingTasks.
Local Abbreviation terminatedTasks := RunInOrder.terminatedTasks.
Local Abbreviation Init := (RunInOrder.Init ControlFlow Mapping).
Local Abbreviation TaskReady := (RunInOrder.TaskReady Tasks ControlFlow).
Local Abbreviation Next := (RunInOrder.Next Tasks Workers ControlFlow).
Local Abbreviation Enabled := (RunInOrder.Enabled Tasks Workers ControlFlow).
Local Abbreviation Spec := (RunInOrder.Spec Tasks Workers ControlFlow Mapping).
Local Abbreviation reachable :=
  (RunInOrder.reachable Tasks Workers ControlFlow Mapping).
Local Abbreviation Inv := (RunInOrder.Inv Workers ControlFlow Mapping).
Local Abbreviation started := RunInOrder.started.
Local Abbreviation stopped := RunInOrder.stopped.
Local Abbreviation executed := RunInOrder.executed.
Local Abbreviation submission_order := RunInOrder.submission_order.
Local Abbreviation mapped_to :=
  (fun w => filter (fun x : Task * Z => Mapping x.2 = w) ControlFlow).

(** *** Placement *)

Lemma terminatedTasks_mapped (s : State) x :
  reachable s -> x ∈ terminatedTasks s -> Mapping x.2 ∈ Workers.
Proof.
  induction 1 as [s (Hterm & _)|s s' Hs IH (w & Hw & [Hex|Htm])].
  - rewrite Hterm. intros Hx. by apply not_elem_of_empty in Hx.
  - destruct Hex as (_ & t & tid & _ & _ & _ & _ & _ & ->). done.
  - destruct Htm as (x0 & Hrun & _ & -> & _).
    intros [Hx| ->%elem_of_singleton]%elem_of_union; [by apply IH|].
    destruct (Inv_reachable Tasks Workers ControlFlow Mapping s Hs)
      as (_ & I2 & _).
    destruct (I2 _ _ Hrun) as (_ & _ & -> & _). done.
Qed.

(** X9. Placement follows [Mapping].  In every reachable state a task
    queued on a worker or executed by a worker is a task of the control
    flow that [Mapping] sends to that worker, and the executing worker is
    one of [Workers]; every identifier in the sequence a worker has
    executed is mapped to it. *)
Theorem tasks_run_on_their_worker :
  (forall (s : State) w x, reachable s ->
     (x ∈ workerPendingTasks s w -> x ∈ ControlFlow /\ Mapping x.2 = w) /\
     (workerStates s w = Some x ->
        w ∈ Workers /\ x ∈ ControlFlow /\ Mapping x.2 = w)) /\
  (forall (b : nat -> State) w n tid,
     Init (b O) -> (forall n, Next (b n) (b (S n)) \/ b (S n) = b n) ->
     tid ∈ executed b w n ->
     Mapping tid = w /\ exists t, (t, tid) ∈ ControlFlow).
Proof.
  split.
  - intros s w x (I1 & I2 & _)%Inv_reachable. split; [apply I1|].
    intros Hx. destruct (I2 _ _ Hx) as (? & ? & ? & _). done.
  - intros b w n tid Hinit Hstep Hin.
    pose proof (executed_then_pending Tasks Workers ControlFlow Mapping
                  b w Hinit Hstep n) as Heq.
    assert (tid ∈ submission_order (mapped_to w)) as Hs.
    { rewrite <- Heq. apply elem_of_app. by left. }
    apply submission_order_elem_of in Hs as (t & [Hm Ht]%elem_of_filter).
    eauto.
Qed.

(** X10. A task that [Mapping] sends to no worker is never executed: it
    is never pending, active or terminated, so [terminatedTasks] never
    reaches the control flow and [TypeOK] fails in every reachable
    state. *)
Theorem unmapped_task_never_runs (s : State) (x : Task * Z) :
  reachable s -> x ∈ ControlFlow -> Mapping x.2 ∉ Workers ->
  (x ∉ pendingTasks s) /\ (x ∉ activeTasks s) /\ (x ∉ terminatedTasks s) /\
  ~ RunInOrder.TypeOK Workers ControlFlow s /\
  terminatedTasks s <> ControlFlow.
Proof.
  intros Hs Hx Hun.
  pose proof (Inv_reachable Tasks Workers ControlFlow Mapping s Hs) as HI.
  assert (x ∉ pendingTasks s) as Hp.
  { intros Hp. by apply (pendingTasks_Inv _ _ Mapping s x HI) in Hp
      as (_ & _ & _ & ?). }
  assert (x ∉ activeTasks s) as Ha.
  { intros (w & Hw & Ha)%elem_of_activeTasks.
    destruct HI as (_ & I2 & _). destruct (I2 _ _ Ha) as (_ & _ & Hm & _).
    by rewrite Hm in Hun. }
  assert (x ∉ terminatedTasks s) as Ht.
  { intros Ht. by apply (terminatedTasks_mapped s x Hs) in Ht. }
  repeat split; try done.
  - intros Htype. rewrite <- Htype, !elem_of_union in Hx. tauto.
  - intros Heq. by rewrite Heq in Ht.
Qed.

(** *** Progress *)

(** X11. The oldest unfinished task is never blocked by its dependencies:
    in a reachable state, a pending task whose identifier is least among
    the pending and active tasks satisfies [TaskReady]. *)
Theorem oldest_unfinished_task_ready (s : State) (x : Task * Z) :
  maps_to_workers Workers ControlFlow Mapping ->
  reachable s ->
  x ∈ pendingTasks s ->
  (forall y, y ∈ pendingTasks s ∪ activeTasks s -> x.2 <= y.2) ->
  TaskReady s x.1 x.2.
Proof.
  intros Hmap HI%Inv_reachable Hx Hmin.
  apply (TaskReady_conflicts Tasks ControlFlow Mapping).
  intros d x1 Hx1 Hnt Hlt.
  destruct (ControlFlow_cases _ _ _ s x1 HI Hmap Hx1) as [Hp|[Ha|Ht]];
    [| |done].
  - specialize (Hmin x1 (elem_of_union_l _ _ _ Hp)). lia.
  - specialize (Hmin x1 (elem_of_union_r _ _ _ Ha)). lia.
Qed.

Lemma unfinished_of_Enabled (s : State) :
  Enabled s -> pendingTasks s ∪ activeTasks s <> ∅.
Proof.
  intros (s' & (w & Hw & [Hex|Htm]) & _) Hfin.
  - destruct Hex as (_ & t & tid & Hin & _).
    assert ((t, tid) ∈ pendingTasks s ∪ activeTasks s) as Hc.
    { apply elem_of_union_l, elem_of_pendingTasks. eauto. }
    rewrite Hfin in Hc. by apply not_elem_of_empty in Hc.
  - destruct Htm as (x & Hrun & _).
    assert (x ∈ pendingTasks s ∪ activeTasks s) as Hc.
    { apply elem_of_union_r, elem_of_activeTasks. eauto. }
    rewrite Hfin in Hc. by apply not_elem_of_empty in Hc.
Qed.

(** X12. The in-order model never deadlocks: in a reachable state a step
    is enabled exactly when some task is pending or active.  (Restricting
    each worker to the head of its queue blocks no run for ever.) *)
Theorem Enabled_iff_unfinished (s : State) :
  maps_to_workers Workers ControlFlow Mapping ->
  reachable s ->
  Enabled s <-> pendingTasks s ∪ activeTasks s <> ∅.
Proof.
  intros Hmap HI%Inv_reachable. split; [apply unfinished_of_Enabled|].
  by apply (progress Tasks Workers ControlFlow Mapping).
Qed.

(** *** Sequential consistency *)

Lemma started_ExecuteTask (s s' : State) w x :
  Next s s' \/ s' = s -> started w s s' = Some x ->
  w ∈ Workers /\ TaskReady s x.1 x.2.
Proof.
  intros [(w0 & Hw0 & [Hex|Htm])| ->] Hst.
  - destruct Hex as (Hidle & t & tid & Hin & Hmin & Hrdy & Hwpt & Hws & Hterm).
    destruct (decide (w0 = w)) as [<-|Hne].
    + unfold RunInOrder.started in Hst.
      rewrite Hidle, Hws, fn_lookup_insert in Hst. by injection Hst as <-.
    + rewrite started_unchanged in Hst; [done|].
      by rewrite Hws, fn_lookup_insert_ne.
  - destruct Htm as (x0 & Hrun & Hws & Hterm & Hwpt).
    destruct (decide (w0 = w)) as [<-|Hne].
    + unfold RunInOrder.started in Hst. by rewrite Hrun in Hst.
    + rewrite started_unchanged in Hst; [done|].
      by rewrite Hws, fn_lookup_insert_ne.
  - by rewrite started_unchanged in Hst.
Qed.

Lemma terminated_was_stopped (b : nat -> State) x :
  Init (b O) -> (forall n, Next (b n) (b (S n)) \/ b (S n) = b n) ->
  forall n, x ∈ terminatedTasks (b n) ->
    exists w k, (k < n)%nat /\ stopped w (b k) (b (S k)) = Some x.
Proof.
  intros (Hterm & _) Hstep n. induction n as [|n IH].
  - rewrite Hterm. intros Hx. by apply not_elem_of_empty in Hx.
  - intros Hx.
    assert (x ∈ terminatedTasks (b n) \/
            exists w, stopped w (b n) (b (S n)) = Some x) as [Hold|[w Hw]].
    { destruct (Hstep n) as [(w & Hw & [Hex|Htm])|Hn].
      - destruct Hex as (_ & t & tid & _ & _ & _ & _ & _ & Ht).
        left. by rewrite <- Ht.
      - destruct Htm as (x0 & Hrun & Hws & Ht & _). rewrite Ht in Hx.
        apply elem_of_union in Hx as [Hx| ->%elem_of_singleton]; [by left|].
        right. exists w. unfold RunInOrder.stopped.
        by rewrite Hrun, Hws, fn_lookup_insert.
      - left. by rewrite <- Hn. }
    + destruct (IH Hold) as (w & k & Hk & Hst). exists w, k. split; [lia|done].
    + exists w, n. split; [lia|done].
Qed.

Lemma active_was_started (b : nat -> State) w x :
  Init (b O) -> (forall n, Next (b n) (b (S n)) \/ b (S n) = b n) ->
  forall k, workerStates (b k) w = Some x ->
    exists j, (j < k)%nat /\ started w (b j) (b (S j)) = Some x.
Proof.
  intros (_ & Hws0 & _) Hstep k. induction k as [|k IH].
  - by rewrite Hws0.
  - intros Hx. destruct (workerStates (b k) w) as [x'|] eqn:Hk.
    + assert (x' = x) as ->.
      { destruct (Hstep k) as [(w0 & Hw0 & [Hex|Htm])|Hn].
        - destruct Hex as (Hidle & t & tid & _ & _ & _ & _ & Hws & _).
          rewrite Hws in Hx. destruct (decide (w0 = w)) as [<-|Hne].
          + unfold RunInOrder.Idle in Hidle. congruence.
          + rewrite fn_lookup_insert_ne in Hx by done. congruence.
        - destruct Htm as (x0 & Hrun & Hws & _).
          rewrite Hws in Hx. destruct (decide (w0 = w)) as [<-|Hne].
          + by rewrite fn_lookup_insert in Hx.
          + rewrite fn_lookup_insert_ne in Hx by done. congruence.
        - rewrite Hn in Hx. congruence. }
      destruct (IH eq_refl) as (j & Hj & Hst). exists j. split; [lia|done].
    + exists k. split; [lia|]. unfold RunInOrder.started. by rewrite Hk, Hx.
Qed.

(** X13. Sequential consistency.  Along every behaviour, when a task [T2]
    starts, every task [T1] of the control flow with a smaller identifier
    that conflicts with it on some data item (both access it and one of
    them writes it) has already been started and has already terminated:
    [T1] was started at a step [j] and finished at a later step [k], both
    before the step at which [T2] starts. *)
Theorem sequential_consistency (b : nat -> State) (n : nat) (w2 : Worker)
    (T1 T2 : Task * Z) (d : Data) :
  Init (b O) ->
  (forall n, Next (b n) (b (S n)) \/ b (S n) = b n) ->
  started w2 (b n) (b (S n)) = Some T2 ->
  T1 ∈ ControlFlow -> T1.2 < T2.2 ->
  conflicts (Tasks T2.1 d) (Tasks T1.1 d) ->
  T1 ∈ terminatedTasks (b n) /\
  exists w1 j k, (j < k < n)%nat /\
    started w1 (b j) (b (S j)) = Some T1 /\
    stopped w1 (b k) (b (S k)) = Some T1.
Proof.
  intros Hinit Hstep Hst Hin Hlt Hconf.
  destruct (started_ExecuteTask _ _ w2 T2 (Hstep n) Hst) as [_ Hrdy].
  assert (T1 ∈ terminatedTasks (b n)) as Hterm.
  { destruct (decide (T1 ∈ terminatedTasks (b n))) as [|Hnt]; [done|].
    by destruct (proj1 (TaskReady_conflicts Tasks ControlFlow Mapping _ _ _)
                   Hrdy d T1 Hin Hnt Hlt). }
  split; [done|].
  destruct (terminated_was_stopped b T1 Hinit Hstep n Hterm)
    as (w1 & k & Hk & Hstop).
  assert (workerStates (b k) w1 = Some T1) as Hact.
  { unfold RunInOrder.stopped in Hstop.
    destruct (workerStates (b k) w1), (workerStates (b (S k)) w1);
      congruence. }
  destruct (active_was_started b w1 T1 Hinit Hstep k Hact) as (j & Hj & Hstart).
  exists w1, j, k. split; [lia|done].
Qed.

(** *** Every task is executed once *)

Lemma eventually_finished (b : nat -> State) :
  maps_to_workers Workers ControlFlow Mapping -> Spec b ->
  exists n, pendingTasks (b n) ∪ activeTasks (b n) = ∅.
Proof.
  intros Hmap (Hinit & Hstep & Hfair).
  assert (forall n, Inv (b n)) as HI.
  { intros n. apply (Inv_reachable Tasks). by apply behaviour_reachable. }
  assert (forall k n,
            (RunInOrder.remaining Workers ControlFlow (b n) <= k)%nat ->
            exists m, (n <= m)%nat /\
              pendingTasks (b m) ∪ activeTasks (b m) = ∅) as Hmain.
  { induction k as [k IH] using lt_wf_ind. intros n Hk.
    destruct (classic (exists m, (n <= m)%nat /\
                pendingTasks (b m) ∪ activeTasks (b m) = ∅)) as [|Hno];
      [done|].
    destruct (Hfair n) as (m & Hm & Hnext & _).
    { intros m Hm. apply (progress Tasks Workers ControlFlow Mapping);
        [done..|]. intros He. apply Hno. eauto. }
    pose proof (remaining_Next Tasks Workers ControlFlow Mapping _ _
                  (HI m) Hnext) as Hlt.
    pose proof (remaining_behaviour Tasks Workers ControlFlow Mapping
                  b Hinit Hstep n m Hm) as Hle.
    destruct (IH (RunInOrder.remaining Workers ControlFlow (b (S m)))
                ltac:(lia) (S m) ltac:(lia)) as (m' & Hm' & Hdone).
    exists m'. split; [lia|done]. }
  destruct (Hmain _ O (le_n _)) as (n & _ & Hdone). by exists n.
Qed.

Lemma finished_stays (b : nat -> State) n :
  (forall n, Next (b n) (b (S n)) \/ b (S n) = b n) ->
  pendingTasks (b n) ∪ activeTasks (b n) = ∅ ->
  forall m, (n <= m)%nat -> b m = b n.
Proof.
  intros Hstep Hfin m Hnm. induction Hnm as [|m Hnm IH]; [done|].
  destruct (Hstep m) as [Hnext|Hn]; [|by rewrite Hn].
  exfalso. rewrite IH in Hnext.
  apply (unfinished_of_Enabled (b n)); [|done].
  exists (b (S m)). split; [done|]. by apply Next_changes in Hnext.
Qed.

(** X14. Every task is executed exactly once, in order, and then nothing
    happens any more: every behaviour of the in-order model reaches a
    point from which the state no longer changes, all the tasks of the
    control flow have terminated, and the sequence of identifiers each
    worker has executed is the submission order of the tasks mapped to
    it. *)
Theorem every_task_executed_once (b : nat -> State) :
  maps_to_workers Workers ControlFlow Mapping ->
  Spec b ->
  exists n, forall m, (n <= m)%nat ->
    b m = b n /\
    terminatedTasks (b m) = ControlFlow /\
    forall w, w ∈ Workers ->
      executed b w m = submission_order (mapped_to w).
Proof.
  intros Hmap Hspec. destruct (eventually_finished b Hmap Hspec) as [n Hfin].
  destruct Hspec as (Hinit & Hstep & _).
  exists n. intros m Hm.
  pose proof (finished_stays b n Hstep Hfin m Hm) as Hsame.
  split; [done|].
  assert (Inv (b n)) as HI
    by (by apply (Inv_reachable Tasks), behaviour_reachable).
  destruct (finished_state Workers ControlFlow Mapping (b n) HI Hmap Hfin)
    as (Hp & _ & Hall).
  split; [by rewrite Hsame|].
  intros w Hw.
  pose proof (executed_then_pending Tasks Workers ControlFlow Mapping
                b w Hinit Hstep m) as Heq.
  assert (workerPendingTasks (b m) w = ∅) as Hq.
  { rewrite Hsame. apply elem_of_equiv_empty_L. intros x Hx.
    assert (x ∈ pendingTasks (b n)) as Hin
      by (apply elem_of_pendingTasks; eauto).
    rewrite Hp in Hin. by apply not_elem_of_empty in Hin. }
  rewrite Hq, submission_order_empty, (right_id_L [] (++)) in Heq. done.
Qed.

(** *** Read-only workloads *)

(** X15. A workload without writes never waits.  When no task of the
    control flow writes any data item (as with the tasks of the
    [counter_deps] driver, which only declare [STARPU_R]), every idle
    worker with a non-empty queue can start the oldest task of its queue,
    in every reachable state. *)
Theorem read_only_workload_never_waits (s : State) (w : Worker) :
  (forall x d, x ∈ ControlFlow -> Tasks x.1 d <> DepW) ->
  reachable s ->
  workerStates s w = RunInOrder.Idle ->
  workerPendingTasks s w <> ∅ ->
  exists s', RunInOrder.ExecuteTask Tasks ControlFlow w s s'.
Proof.
  intros Hro (I1 & _)%Inv_reachable Hidle Hne.
  destruct (gset_min_tid _ Hne) as ([t tid] & Hin & Hmin).
  exists (RunInOrder.mkState
            (<[w := workerPendingTasks s w ∖ {[ (t, tid) ]}]>
               (workerPendingTasks s))
            (terminatedTasks s)
            (<[w := Some (t, tid)]> (workerStates s))).
  split; [done|]. exists t, tid. split; [done|].
  split; [intros ot otid Ho; apply (Hmin _ Ho)|]. split; [|done].
  destruct (I1 _ _ Hin) as [Hcf _].
  intros d. destruct (Tasks t d) eqn:E.
  - right. left. split; [done|]. intros t' tid' Hin'.
    destruct (Tasks t' d) eqn:E'; [by right; left| |by left].
    by destruct (Hro (t', tid') d Hin').
  - by destruct (Hro (t, tid) d Hcf).
  - by left.
Qed.

End RunInOrderMore.

(** ** Runs of [STFSpec] *)

Section STFRunsMore.

Context {Task Worker Data : Type} `{Countable Task} `{Countable Worker}
  `{Finite Data}.
Variable Tasks : Task -> Data -> Dependency.
Variable Workers : gset Worker.
Variable ControlFlow : gset (Task * Z).

Local Abbreviation State := (@STFSpec.State Task Worker _ _).
Local Abbreviation allowed := (STFSpec.allowed Tasks Workers).
Local Abbreviation complete_schedule :=
  (STFSpec.complete_schedule Tasks Workers).
Local Abbreviation play := STFSpec.play.
Local Abbreviation perform := STFSpec.perform.

Lemma STF_play_S sched (s : State) n :
  play sched s (S n) =
  match sched !! n with
  | Some a => perform a (play sched s n)
  | None => play sched s n
  end.
Proof.
  revert s n. induction sched as [|a sched IH]; intros s n.
  - unfold STFSpec.play. by rewrite !take_nil, lookup_nil.
  - destruct n as [|n]; [done|]. apply (IH (perform a s) n).
Qed.

Lemma STF_play_schedule sched (s : State) n :
  complete_schedule sched s ->
  match sched !! n with
  | Some a => allowed a (play sched s n)
  | None => STFSpec.Terminated Workers (play sched s n)
  end.
Proof.
  revert s n. induction sched as [|a sched IH]; intros s n Hc.
  - unfold STFSpec.play. by rewrite take_nil.
  - destruct Hc as [Ha Hc]. destruct n as [|n]; [done|].
    apply (IH (perform a s) n Hc).
Qed.

(** A complete schedule played from an initial state is a behaviour of
    [STFSpec]. *)
Lemma STF_play_Spec sched (s : State) :
  STFSpec.Init ControlFlow s ->
  complete_schedule sched s ->
  STFSpec.Spec Tasks Workers ControlFlow (play sched s).
Proof.
  intros Hinit Hc. split; [done|]. split.
  - intros n. rewrite STF_play_S.
    pose proof (STF_play_schedule sched s n Hc) as Hn.
    destruct (sched !! n); [left|by right]. by apply STF_perform_Next.
  - intros n Hen. exfalso.
    destruct (STF_Enabled_unfinished_state Tasks Workers
                (play sched s (n + length sched))) as [_ Hne].
    + apply Hen. lia.
    + pose proof (STF_play_schedule sched s (n + length sched) Hc) as Hn.
      rewrite lookup_ge_None_2 in Hn by lia. done.
Qed.

End STFRunsMore.

(** ** The theorems above at concrete inputs *)

Section Instances.
Import CounterDeps LU2x2.

Lemma LU2x2_STF_Spec :
  STFSpec.Spec InputTasks InputWorkers InputControlFlow STF_run.
Proof.
  apply STF_play_Spec; [done|]. by_computation.
Qed.

Lemma rng_next_nonzero_64bit_witness :
  0 < state rng_new < 2 ^ 64 /\
  0 < (rng_next rng_new).2 < 2 ^ 64 /\
  state (rng_next rng_new).1 = (rng_next rng_new).2.
Proof.
  split; [by vm_compute|].
  apply (rng_next_nonzero_64bit rng_new). by vm_compute.
Defined.

Lemma rng_next_injective_witness :
  0 <= state rng_new < 2 ^ 64 /\
  (rng_next rng_new).2 = (rng_next {| state := 2463534242 |}).2 /\
  state rng_new = state {| state := 2463534242 |}.
Proof.
  split; [by vm_compute|]. split; [reflexivity|].
  apply (rng_next_injective rng_new {| state := 2463534242 |});
    [by vm_compute|by vm_compute|reflexivity].
Defined.

Lemma generated_nonzero_64bit_witness :
  2665565789183166779 ∈ generated 1 rng_new /\
  0 < 2665565789183166779 < 2 ^ 64.
Proof.
  assert (2665565789183166779 ∈ generated 1 rng_new) as Hin
    by (vm_compute; apply list_elem_of_here).
  split; [exact Hin|].
  exact (generated_nonzero_64bit 1 2665565789183166779 Hin).
Defined.

Lemma main_outcome_witness :
  Forall (fun v => INT_MIN <= v <= INT_MAX) [3; 7] /\
  exists ts, main [3; 7] = Returns ts /\ length ts = 3%nat.
Proof.
  assert (Forall (fun v => INT_MIN <= v <= INT_MAX) [3; 7]) as Hint
    by (repeat constructor; by vm_compute).
  split; [exact Hint|].
  exact (main_outcome [3; 7] Hint).
Defined.

Lemma STF_task_held_once_witness :
  STFSpec.reachable InputTasks InputWorkers InputControlFlow STF_panels /\
  STFSpec.TypeOK InputWorkers InputControlFlow STF_panels /\
  STFSpec.pendingTasks STF_panels
    ## STFSpec.activeTasks InputWorkers STF_panels /\
  (forall w1 w2 x,
     STFSpec.workerStates STF_panels w1 = Some x ->
     STFSpec.workerStates STF_panels w2 = Some x -> w1 = w2).
Proof.
  split; [exact LU2x2_STF_reachable|].
  exact (STF_task_held_once InputTasks InputWorkers InputControlFlow
           STF_panels LU2x2_STF_reachable).
Defined.

Lemma STF_terminates_iff_witness :
  STFSpec.Spec InputTasks InputWorkers InputControlFlow STF_run /\
  ((exists n, STFSpec.Terminated InputWorkers (STF_run n)) <->
   InputWorkers <> ∅ \/ InputControlFlow = ∅).
Proof.
  split; [exact LU2x2_STF_Spec|].
  exact (STF_terminates_iff InputTasks InputWorkers InputControlFlow
           STF_run LU2x2_STF_Spec).
Defined.

(** The 2x2 model with the worker [w2] removed: [fact1], which [Mapping]
    sends to [w2], is never executed. *)
Lemma unmapped_task_never_runs_witness :
  RunInOrder.reachable InputTasks {[ w1 ]} InputControlFlow InputMapping
    init /\
  (fact1, 1) ∈ InputControlFlow /\
  (InputMapping 1 ∉ ({[ w1 ]} : gset WorkerName)) /\
  ((fact1, 1) ∉ RunInOrder.pendingTasks {[ w1 ]} init) /\
  ((fact1, 1) ∉ RunInOrder.activeTasks {[ w1 ]} init) /\
  ((fact1, 1) ∉ RunInOrder.terminatedTasks init) /\
  ~ RunInOrder.TypeOK {[ w1 ]} InputControlFlow init /\
  RunInOrder.terminatedTasks init <> InputControlFlow.
Proof.
  assert (RunInOrder.reachable InputTasks {[ w1 ]} InputControlFlow
            InputMapping init) as Hreach by (by constructor).
  assert ((fact1, 1) ∈ InputControlFlow) as Hin by by_computation.
  assert (InputMapping (fact1, 1).2 ∉ ({[ w1 ]} : gset WorkerName)) as Hun
    by by_computation.
  split; [exact Hreach|]. split; [exact Hin|]. split; [exact Hun|].
  exact (unmapped_task_never_runs InputTasks {[ w1 ]} InputControlFlow
           InputMapping init (fact1, 1) Hreach Hin Hun).
Defined.

Lemma oldest_unfinished_task_ready_witness :
  maps_to_workers InputWorkers InputControlFlow InputMapping /\
  RunInOrder.reachable InputTasks InputWorkers InputControlFlow InputMapping
    (run 2) /\
  (panel21, 2) ∈ RunInOrder.pendingTasks InputWorkers (run 2) /\
  (forall y, y ∈ RunInOrder.pendingTasks InputWorkers (run 2)
               ∪ RunInOrder.activeTasks InputWorkers (run 2) -> 2 <= y.2) /\
  RunInOrder.TaskReady InputTasks InputControlFlow (run 2) panel21 2.
Proof.
  assert ((panel21, 2) ∈ RunInOrder.pendingTasks InputWorkers (run 2))
    as Hin by by_computation.
  assert (forall y, y ∈ RunInOrder.pendingTasks InputWorkers (run 2)
                      ∪ RunInOrder.activeTasks InputWorkers (run 2) ->
                    (panel21, 2).2 <= y.2) as Hmin.
  { change (set_Forall (fun y : TaskName * Z => 2 <= y.2)
              (RunInOrder.pendingTasks InputWorkers (run 2)
                 ∪ RunInOrder.activeTasks InputWorkers (run 2))).
    by_computation. }
  split; [exact LU2x2_maps_to_workers|]. split; [exact (LU2x2_reachable 2)|].
  split; [exact Hin|]. split; [exact Hmin|].
  exact (oldest_unfinished_task_ready InputTasks InputWorkers
           InputControlFlow InputMapping (run 2) (panel21, 2)
           LU2x2_maps_to_workers (LU2x2_reachable 2) Hin Hmin).
Defined.

Lemma Enabled_iff_unfinished_witness :
  maps_to_workers InputWorkers InputControlFlow InputMapping /\
  RunInOrder.reachable InputTasks InputWorkers InputControlFlow InputMapping
    (run 3) /\
  (RunInOrder.Enabled InputTasks InputWorkers InputControlFlow (run 3) <->
   RunInOrder.pendingTasks InputWorkers (run 3)
     ∪ RunInOrder.activeTasks InputWorkers (run 3) <> ∅).
Proof.
  split; [exact LU2x2_maps_to_workers|]. split; [exact (LU2x2_reachable 3)|].
  exact (Enabled_iff_unfinished InputTasks InputWorkers InputControlFlow
           InputMapping (run 3) LU2x2_maps_to_workers (LU2x2_reachable 3)).
Defined.

Lemma sequential_consistency_witness :
  RunInOrder.Init InputControlFlow InputMapping (run 0) /\
  (forall n,
     RunInOrder.Next InputTasks InputWorkers InputControlFlow
       (run n) (run (S n)) \/ run (S n) = run n) /\
  RunInOrder.started w1 (run 2) (run 3) = Some (panel21, 2) /\
  (fact1, 1) ∈ InputControlFlow /\
  conflicts (InputTasks panel21 d11) (InputTasks fact1 d11) /\
  (fact1, 1) ∈ RunInOrder.terminatedTasks (run 2) /\
  exists w j k, (j < k < 2)%nat /\
    RunInOrder.started w (run j) (run (S j)) = Some (fact1, 1) /\
    RunInOrder.stopped w (run k) (run (S k)) = Some (fact1, 1).
Proof.
  assert (RunInOrder.started w1 (run 2) (run 3) = Some (panel21, 2))
    as Hst by (vm_compute; reflexivity).
  assert ((fact1, 1) ∈ InputControlFlow) as Hin by by_computation.
  assert (conflicts (InputTasks (panel21, 2).1 d11)
            (InputTasks (fact1, 1).1 d11)) as Hconf
    by (vm_compute; reflexivity).
  split; [exact LU2x2_Init|]. split; [exact LU2x2_steps|].
  split; [exact Hst|]. split; [exact Hin|]. split; [exact Hconf|].
  exact (sequential_consistency InputTasks InputWorkers InputControlFlow
           InputMapping run 2 w1 (fact1, 1) (panel21, 2) d11
           LU2x2_Init LU2x2_steps Hst Hin eq_refl Hconf).
Defined.

Lemma every_task_executed_once_witness :
  maps_to_workers InputWorkers InputControlFlow InputMapping /\
  RunInOrder.Spec InputTasks InputWorkers InputControlFlow InputMapping run /\
  exists n, forall m, (n <= m)%nat ->
    run m = run n /\
    RunInOrder.terminatedTasks (run m) = InputControlFlow /\
    forall w, w ∈ InputWorkers ->
      RunInOrder.executed run w m =
      RunInOrder.submission_order
        (filter (fun x : TaskName * Z => InputMapping x.2 = w)
           InputControlFlow).
Proof.
  split; [exact LU2x2_maps_to_workers|]. split; [exact LU2x2_Spec|].
  exact (every_task_executed_once InputTasks InputWorkers InputControlFlow
           InputMapping run LU2x2_maps_to_workers LU2x2_Spec).
Defined.

(** The control flow of the 2x2 model with tasks that only read. *)
Lemma read_only_workload_never_waits_witness :
  (forall (x : TaskName * Z) (d : DataName),
     x ∈ InputControlFlow -> DepR <> DepW) /\
  RunInOrder.reachable (fun (_ : TaskName) (_ : DataName) => DepR)
    InputWorkers InputControlFlow InputMapping init /\
  RunInOrder.workerPendingTasks init w1 <> ∅ /\
  exists s',
    RunInOrder.ExecuteTask (fun (_ : TaskName) (_ : DataName) => DepR)
      InputControlFlow w1 init s'.
Proof.
  assert (forall (x : TaskName * Z) (d : DataName),
            x ∈ InputControlFlow -> DepR <> DepW) as Hro by discriminate.
  assert (RunInOrder.reachable (fun (_ : TaskName) (_ : DataName) => DepR)
            InputWorkers InputControlFlow InputMapping init) as Hreach
    by (by constructor).
  assert (RunInOrder.workerPendingTasks init w1 <> ∅) as Hne
    by by_computation.
  split; [exact Hro|]. split; [exact Hreach|]. split; [exact Hne|].
  exact (read_only_workload_never_waits
           (fun (_ : TaskName) (_ : DataName) => DepR)
           InputWorkers InputControlFlow InputMapping init w1
           Hro Hreach eq_refl Hne).
Defined.

End Instances.
